(** * A chat gateway: rate limiting, request validation and the upstream proxy

    A shallow embedding of [main.py]: the sliding-window rate limiter over the
    process-wide [rate_limit_store], the request schema ([Message],
    [ChatRequest]) with its field constraints, and the three endpoints
    [/health], [/api/status] and [/api/chat].

    Conventions.
    - A Python [float] (a clock reading of [time.time()], a [temperature]) is
      an exact rational of type [Q]; rounding is outside the model.
    - A Python [int] is a [Z]; a [str] is a [string], one element per
      character.
    - [rate_limit_store], a [defaultdict(list)], is a [gmap string (list Q)];
      reading a missing key stores the empty list under it, as [__missing__]
      does.
    - The OpenAI client is an oracle ([Upstream]): what each call returns or
      raises is a parameter, and every call is recorded in the event trace. *)

From Stdlib Require Import QArith Lqa.
From stdpp Require Import gmap strings list sorting pretty.

Local Open Scope string_scope.
Local Open Scope list_scope.
Local Open Scope Z_scope.

(** ** Configuration (the module-level constants read from the environment) *)

Record Config := {
  ENVIRONMENT : string;
  MAX_TOKENS : Z;
  RATE_LIMIT_REQUESTS : Z;
  RATE_LIMIT_PERIOD : Z;
}.

(** The values [os.getenv] falls back to. *)
Definition default_config : Config := {|
  ENVIRONMENT := "development";
  MAX_TOKENS := 2048;
  RATE_LIMIT_REQUESTS := 100;
  RATE_LIMIT_PERIOD := 60;
|}.

(** ** Exceptions and the state-and-exception monad of the handlers *)

Inductive upstream_failure :=
  | TransportFailure
  | AuthenticationFailure
  | ProviderError.

Inductive exn :=
  | HTTPException (status_code : Z) (detail : string)
  | OpenAIError (kind : upstream_failure) (text : string)
  | IndexError
  | ResponseValidationError.

(** [str(e)] *)
Definition exn_str (e : exn) : string :=
  match e with
  | HTTPException _ detail => detail
  | OpenAIError _ text => text
  | IndexError => "list index out of range"
  | ResponseValidationError => "1 validation error for ChatResponse"
  end.

Inductive outcome (A : Type) :=
  | Return (a : A)
  | Raise (e : exn).
Arguments Return {A} a.
Arguments Raise {A} e.

Definition M (S A : Type) : Type := S → outcome A * S.

Definition ret {S A} (a : A) : M S A := λ s, (Return a, s).
Definition raise {S A} (e : exn) : M S A := λ s, (Raise e, s).
Definition bind {S A B} (m : M S A) (k : A → M S B) : M S B :=
  λ s, match m s with
       | (Return a, s') => k a s'
       | (Raise e, s') => (Raise e, s')
       end.
Definition try_except {S A} (m : M S A) (handler : exn → M S A) : M S A :=
  λ s, match m s with
       | (Return a, s') => (Return a, s')
       | (Raise e, s') => handler e s'
       end.
Definition modify {S} (f : S → S) : M S unit := λ s, (Return tt, f s).

Declare Scope py_scope.
Delimit Scope py_scope with py.
Notation "'let*' x ':=' m 'in' k" := (bind m (λ x, k))
  (at level 10, x name, m at level 100, k at level 200) : py_scope.
Notation "m ;; k" := (bind m (λ _, k))
  (at level 100, k at level 200, right associativity) : py_scope.
Local Open Scope py_scope.

(** ** The rate limiter *)

#[global] Instance Qlt_dec : RelDecision Qlt.
Proof.
  intros x y. destruct (Qlt_le_dec x y) as [H | H].
  - left. exact H.
  - right. intros H'. exact (Qlt_not_le _ _ H' H).
Defined.

(** [rate_limit_store = defaultdict(list)] *)
Abbreviation Store := (gmap string (list Q)).

(** [rate_limit_store[k]] as an expression: [defaultdict.__getitem__]. *)
Definition getitem (k : string) : M Store (list Q) :=
  λ s, match s !! k with
       | Some l => (Return l, s)
       | None => (Return [], <[k := []]> s)
       end.

(** [rate_limit_store[k] = v] *)
Definition setitem (k : string) (v : list Q) : M Store unit :=
  modify (λ s, <[k := v]> s).

(** [l.append(x)] on the list object stored under [k]. *)
Definition append_at (k : string) (x : Q) : M Store unit :=
  modify (λ s, alter (λ l, l ++ [x]) k s).

(** The list comprehension of [check_rate_limit]: the stored request times
    that stay. *)
Definition clean_old_requests (cfg : Config) (current_time : Q) (l : list Q) : list Q :=
  filter (λ req_time, (current_time - req_time < inject_Z (RATE_LIMIT_PERIOD cfg))%Q) l.

(** [check_rate_limit(client_ip)]; [current_time] is what [time.time()]
    returns in this call. *)
Definition check_rate_limit (cfg : Config) (current_time : Q) (client_ip : string)
  : M Store bool :=
  let* old := getitem client_ip in
  setitem client_ip (clean_old_requests cfg current_time old) ;;
  let* cur := getitem client_ip in
  if decide (RATE_LIMIT_REQUESTS cfg ≤ Z.of_nat (length cur)) then ret false
  else
    getitem client_ip ;;
    append_at client_ip current_time ;;
    ret true.

(** *** Sequences of limiter calls *)

(** The record of a key: what [rate_limit_store.get(k, [])] would show. *)
Definition record (s : Store) (k : string) : list Q := default [] (s !! k).

(** One call, as a transition of the store with the answer; the limiter
    raises nothing, so the exceptional branch is never taken
    (see [check_rate_limit_unfold]). *)
Definition limiter_step (cfg : Config) (call : Q * string) (s : Store) : bool * Store :=
  match check_rate_limit cfg call.1 call.2 s with
  | (Return b, s') => (b, s')
  | (Raise _, s') => (false, s')
  end.

(** The store after a sequence of calls (clock reading, client key), oldest
    call first. *)
Fixpoint run_calls (cfg : Config) (calls : list (Q * string)) (s : Store) : Store :=
  match calls with
  | [] => s
  | call :: rest => run_calls cfg rest (limiter_step cfg call s).2
  end.

(** How many calls of the sequence were for key [k], were answered [True],
    and carry a clock reading less than [RATE_LIMIT_PERIOD] before [now]. *)
Fixpoint granted_in_window (cfg : Config) (k : string) (now : Q)
    (calls : list (Q * string)) (s : Store) : nat :=
  match calls with
  | [] => 0%nat
  | call :: rest =>
      let r := limiter_step cfg call s in
      ((if r.1 && bool_decide (call.2 = k)
             && bool_decide (now - call.1 < inject_Z (RATE_LIMIT_PERIOD cfg))%Q
        then 1 else 0)
       + granted_in_window cfg k now rest r.2)%nat
  end.

(** Every stored record has at most [B] request times. *)
Definition bounded (B : Z) (s : Store) : Prop :=
  ∀ k l, s !! k = Some l → Z.of_nat (length l) ≤ B.

(** Every record is in ascending order and holds no time after the calls
    still to come. *)
Definition ascending_before (calls : list (Q * string)) (s : Store) : Prop :=
  ∀ k, StronglySorted Qle (record s k) ∧
       Forall (λ t, Forall (λ call : Q * string, (t <= call.1)%Q) calls) (record s k).

(** A configuration with a capacity of two requests per minute, for worked
    examples. *)
Definition two_per_minute : Config := {|
  ENVIRONMENT := "development";
  MAX_TOKENS := 2048;
  RATE_LIMIT_REQUESTS := 2;
  RATE_LIMIT_PERIOD := 60;
|}.

(** ** The request and response models *)

(** A field of a JSON body as the schema sees it: the key is missing, its
    value is [null], or it holds a value of the annotated type. Values of
    another JSON type, and their coercion, are outside the model. *)
Inductive field (A : Type) :=
  | Missing
  | Null
  | Given (a : A).
Arguments Missing {A}.
Arguments Null {A}.
Arguments Given {A} a.

Module RawMessage.
Record t := { role : field string; content : field string }.
End RawMessage.

Module RawChatRequest.
Record t := {
  messages : field (list RawMessage.t);
  model : field string;
  max_tokens : field Z;
  temperature : field Q;
}.
End RawChatRequest.

(** [class Message(BaseModel)] *)
Module Message.
Record t := { role : string; content : string }.
End Message.

(** [class ChatRequest(BaseModel)]; the three [Optional] fields may hold
    [None]. *)
Module ChatRequest.
Record t := {
  messages : list Message.t;
  model : option string;
  max_tokens : option Z;
  temperature : option Q;
}.
End ChatRequest.

(** [class ChatResponse(BaseModel)]; [usage] is a [dict], kept as the list
    of its items. *)
Module ChatResponse.
Record t := {
  response : string;
  model : string;
  usage : option (list (string * Z));
}.
End ChatResponse.

(** *** Validation errors *)

Inductive loc_item :=
  | Key (name : string)
  | Index (i : nat).

Inductive error_type :=
  | missing
  | string_type
  | list_type
  | string_pattern_mismatch
  | string_too_short
  | string_too_long
  | too_short
  | too_long
  | greater_than_equal
  | less_than_equal.

Definition validation_error : Type := list loc_item * error_type.

(** The result of validating a value: the errors found, or the value. *)
Definition validated (A : Type) : Type := list validation_error + A.

Definition errors {A} (v : validated A) : list validation_error :=
  match v with
  | inl es => es
  | inr _ => []
  end.

Definition at_loc {A} (l : loc_item) (v : validated A) : validated A :=
  match v with
  | inl es => inl ((λ e : validation_error, (l :: e.1, e.2)) <$> es)
  | inr a => inr a
  end.

(** A required [str] field: present and not [null]. *)
Definition required_str (f : field string) : validated string :=
  match f with
  | Missing => inl [([], missing)]
  | Null => inl [([], string_type)]
  | Given s => inr s
  end.

(** [pattern="^(user|assistant|system)$"]: an anchored alternation of three
    literals matches exactly these three strings. *)
Definition role_pattern : list string := ["user"; "assistant"; "system"].

(** [role: str = Field(..., pattern=...)] *)
Definition validate_role (f : field string) : validated string :=
  match required_str f with
  | inl es => inl es
  | inr s => if bool_decide (s ∈ role_pattern) then inr s
             else inl [([], string_pattern_mismatch)]
  end.

(** [content: str = Field(..., min_length=1, max_length=10000)] *)
Definition validate_content (f : field string) : validated string :=
  match required_str f with
  | inl es => inl es
  | inr s =>
      if decide (Z.of_nat (String.length s) < 1) then inl [([], string_too_short)]
      else if decide (10000 < Z.of_nat (String.length s)) then inl [([], string_too_long)]
      else inr s
  end.

Definition validate_Message (raw : RawMessage.t) : validated Message.t :=
  match at_loc (Key "role") (validate_role (RawMessage.role raw)),
        at_loc (Key "content") (validate_content (RawMessage.content raw)) with
  | inr r, inr c => inr {| Message.role := r; Message.content := c |}
  | vr, vc => inl (errors vr ++ errors vc)
  end.

(** The items of [messages], each under its index. *)
Fixpoint validate_items (i : nat) (l : list RawMessage.t) : validated (list Message.t) :=
  match l with
  | [] => inr []
  | raw :: rest =>
      match at_loc (Index i) (validate_Message raw), validate_items (S i) rest with
      | inr m, inr ms => inr (m :: ms)
      | vm, vms => inl (errors vm ++ errors vms)
      end
  end.

(** [messages: List[Message] = Field(..., min_items=1, max_items=50)] *)
Definition validate_messages (f : field (list RawMessage.t)) : validated (list Message.t) :=
  match f with
  | Missing => inl [([], missing)]
  | Null => inl [([], list_type)]
  | Given l =>
      if decide (Z.of_nat (length l) < 1) then inl [([], too_short)]
      else if decide (50 < Z.of_nat (length l)) then inl [([], too_long)]
      else validate_items 0 l
  end.

(** [model: Optional[str] = Field(default="gpt-3.5-turbo")] *)
Definition validate_model (f : field string) : validated (option string) :=
  match f with
  | Missing => inr (Some "gpt-3.5-turbo")
  | Null => inr None
  | Given s => inr (Some s)
  end.

(** [max_tokens: Optional[int] = Field(default=1024, ge=1, le=MAX_TOKENS)];
    the default is not validated. *)
Definition validate_max_tokens (cfg : Config) (f : field Z) : validated (option Z) :=
  match f with
  | Missing => inr (Some 1024)
  | Null => inr None
  | Given n =>
      if decide (n < 1) then inl [([], greater_than_equal)]
      else if decide (MAX_TOKENS cfg < n) then inl [([], less_than_equal)]
      else inr (Some n)
  end.

(** [temperature: Optional[float] = Field(default=1.0, ge=0, le=2)] *)
Definition validate_temperature (f : field Q) : validated (option Q) :=
  match f with
  | Missing => inr (Some 1%Q)
  | Null => inr None
  | Given x =>
      if decide (x < 0)%Q then inl [([], greater_than_equal)]
      else if decide (2 < x)%Q then inl [([], less_than_equal)]
      else inr (Some x)
  end.

(** Validation of a request body against [ChatRequest]: every field is
    validated and the errors of all of them are reported together. *)
Definition validate_ChatRequest (cfg : Config) (raw : RawChatRequest.t)
  : validated ChatRequest.t :=
  match at_loc (Key "messages") (validate_messages (RawChatRequest.messages raw)),
        at_loc (Key "model") (validate_model (RawChatRequest.model raw)),
        at_loc (Key "max_tokens") (validate_max_tokens cfg (RawChatRequest.max_tokens raw)),
        at_loc (Key "temperature") (validate_temperature (RawChatRequest.temperature raw)) with
  | inr ms, inr m, inr mt, inr t =>
      inr {| ChatRequest.messages := ms; ChatRequest.model := m;
             ChatRequest.max_tokens := mt; ChatRequest.temperature := t |}
  | vms, vm, vmt, vt => inl (errors vms ++ errors vm ++ errors vmt ++ errors vt)
  end.

(** ** The upstream provider *)

(** The objects the OpenAI client returns, with the attributes the handler
    reads. *)
Module CompletionUsage.
Record t := { prompt_tokens : Z; completion_tokens : Z; total_tokens : Z }.
End CompletionUsage.

Module ChatCompletionMessage.
Record t := { content : option string }.
End ChatCompletionMessage.

Module Choice.
Record t := { message : ChatCompletionMessage.t }.
End Choice.

Module ChatCompletion.
Record t := {
  choices : list Choice.t;
  model : string;
  usage : option CompletionUsage.t;
}.
End ChatCompletion.

(** The keyword arguments of [client.chat.completions.create]; each message
    is a [dict], kept as the list of its items. *)
Module CreateArgs.
Record t := {
  model : option string;
  messages : list (list (string * string));
  max_tokens : option Z;
  temperature : option Q;
}.
End CreateArgs.

(** What a call of the client does: it returns an object or raises one of
    the client library's errors, with the error's text. *)
Inductive upstream_result (A : Type) :=
  | Returned (a : A)
  | Failed (kind : upstream_failure) (text : string).
Arguments Returned {A} a.
Arguments Failed {A} kind text.

(** [client = OpenAI(api_key=api_key)], as an oracle. *)
Record Upstream := {
  chat_completions_create : CreateArgs.t → upstream_result ChatCompletion.t;
  models_list : upstream_result unit;
}.

(** ** Handler state: the store and the observable events *)

Inductive log_level := INFO | WARNING | ERROR.

(** One constructor per [logger] call of the handlers, holding the values
    its f-string interpolates. *)
Inductive log_line :=
  | RateLimitExceeded (client_ip : string)
  | InvalidModelRequested (model : option string)
  | ChatRequestFrom (client_ip : string) (model : option string)
  | SuccessfulResponse (client_ip : string) (usage : option (list (string * Z)))
  | ErrorInChatEndpoint (text : string)
  | OpenAIUnavailable (text : string).

Inductive event :=
  | Logged (level : log_level) (line : log_line)
  | CalledCreate (kwargs : CreateArgs.t)
  | CalledModelsList.

Record State := {
  rate_limit_store : Store;
  trace : list event;
}.

Definition emit (e : event) : M State unit :=
  modify (λ s, {| rate_limit_store := rate_limit_store s; trace := trace s ++ [e] |}).

Definition logger (level : log_level) (line : log_line) : M State unit :=
  emit (Logged level line).

(** A computation on the store, run on the store of the handler state. *)
Definition on_store {A} (m : M Store A) : M State A :=
  λ s, let r := m (rate_limit_store s) in
       (r.1, {| rate_limit_store := r.2; trace := trace s |}).

Definition of_upstream {A} (r : upstream_result A) : M State A :=
  match r with
  | Returned a => ret a
  | Failed kind text => raise (OpenAIError kind text)
  end.

(** [client.chat.completions.create(...)] with the keyword arguments
    [kwargs]. *)
Definition create (client : Upstream) (kwargs : CreateArgs.t) : M State ChatCompletion.t :=
  emit (CalledCreate kwargs) ;;
  of_upstream (chat_completions_create client kwargs).

(** [client.models.list()] *)
Definition list_models (client : Upstream) : M State unit :=
  emit CalledModelsList ;;
  of_upstream (models_list client).

(** [l[0]] *)
Definition item0 {A} (l : list A) : M State A :=
  match l with
  | x :: _ => ret x
  | [] => raise IndexError
  end.

(** [ChatResponse(response=..., model=..., usage=...)]: [response] is a
    required [str], so [None] is refused. *)
Definition ChatResponse_init (response : option string) (model : string)
    (usage : option (list (string * Z))) : M State ChatResponse.t :=
  match response with
  | Some text => ret {| ChatResponse.response := text; ChatResponse.model := model;
                        ChatResponse.usage := usage |}
  | None => raise ResponseValidationError
  end.

(** ** The handlers *)

Definition valid_models : list string :=
  ["gpt-3.5-turbo"; "gpt-4"; "gpt-4-turbo-preview"; "gpt-4-turbo"; "gpt-4o"; "gpt-4o-mini"].

(** [request.model not in valid_models] *)
Definition not_in_valid_models (model : option string) : bool :=
  match model with
  | Some m => negb (bool_decide (m ∈ valid_models))
  | None => true
  end.

Definition rate_limit_detail : string := "Rate limit exceeded. Please try again later.".
Definition processing_failed_detail : string :=
  "An error occurred while processing your request. Please try again.".

(** [async def chat(request: ChatRequest, req: Request)]; [req_client] is
    [req.client.host], or [None] when [req.client] is. *)
Definition chat (cfg : Config) (client : Upstream) (current_time : Q)
    (request : ChatRequest.t) (req_client : option string) : M State ChatResponse.t :=
  let client_ip := default "unknown" req_client in
  let* granted := on_store (check_rate_limit cfg current_time client_ip) in
  if negb granted then
    logger WARNING (RateLimitExceeded client_ip) ;;
    raise (HTTPException 429 rate_limit_detail)
  else
    try_except
      (let* request_model :=
         (if not_in_valid_models (ChatRequest.model request) then
            logger WARNING (InvalidModelRequested (ChatRequest.model request)) ;;
            ret (Some "gpt-3.5-turbo")
          else ret (ChatRequest.model request)) in
       let messages :=
         (λ msg, [("role", Message.role msg); ("content", Message.content msg)])
           <$> ChatRequest.messages request in
       logger INFO (ChatRequestFrom client_ip request_model) ;;
       let* response :=
         create client {| CreateArgs.model := request_model;
                          CreateArgs.messages := messages;
                          CreateArgs.max_tokens := ChatRequest.max_tokens request;
                          CreateArgs.temperature := ChatRequest.temperature request |} in
       let* choice := item0 (ChatCompletion.choices response) in
       let response_text := ChatCompletionMessage.content (Choice.message choice) in
       let usage :=
         match ChatCompletion.usage response with
         | Some u => Some [("prompt_tokens", CompletionUsage.prompt_tokens u);
                           ("completion_tokens", CompletionUsage.completion_tokens u);
                           ("total_tokens", CompletionUsage.total_tokens u)]
         | None => None
         end in
       logger INFO (SuccessfulResponse client_ip usage) ;;
       ChatResponse_init response_text (ChatCompletion.model response) usage)
      (λ e, match e with
            | HTTPException _ _ => raise e
            | _ =>
                logger ERROR (ErrorInChatEndpoint (exn_str e)) ;;
                raise (HTTPException 500 processing_failed_detail)
            end).

(** [async def health_check()]; the returned [dict] as the list of its
    items. *)
Definition health_check (cfg : Config) : M State (list (string * string)) :=
  ret [("status", "healthy"); ("service", "AI Chatbot"); ("version", "1.0.0");
       ("environment", ENVIRONMENT cfg)].

Module StatusBody.
Record t := { api_available : bool; environment : string; max_tokens : Z }.
End StatusBody.

(** [async def api_status()] *)
Definition api_status (cfg : Config) (client : Upstream) : M State StatusBody.t :=
  let* api_available :=
    try_except
      (list_models client ;; ret true)
      (λ e, logger ERROR (OpenAIUnavailable (exn_str e)) ;; ret false) in
  ret {| StatusBody.api_available := api_available;
         StatusBody.environment := ENVIRONMENT cfg;
         StatusBody.max_tokens := MAX_TOKENS cfg |}.

(** ** The routes *)

Inductive Body :=
  | ChatBody (r : ChatResponse.t)
  | HealthBody (items : list (string * string))
  | StatusBodyOf (r : StatusBody.t)
  | Detail (detail : string)
  | ValidationDetail (errs : list validation_error).

Module Response.
Record t := { status_code : Z; body : Body }.
End Response.

(** What the framework answers for the outcome of a handler: the returned
    value with status 200; an [HTTPException] with its status and
    [{"detail": ...}]; any other exception through [internal_error_handler]. *)
Definition respond {A} (to_body : A → Body) (o : outcome A) : Response.t :=
  match o with
  | Return a => {| Response.status_code := 200; Response.body := to_body a |}
  | Raise (HTTPException status detail) =>
      {| Response.status_code := status; Response.body := Detail detail |}
  | Raise _ =>
      {| Response.status_code := 500; Response.body := Detail "Internal server error" |}
  end.

Definition route {A} (to_body : A → Body) (m : M State A) (s : State) : Response.t * State :=
  let r := m s in (respond to_body r.1, r.2).

(** [@app.get("/health")] *)
Definition get_health (cfg : Config) : State → Response.t * State :=
  route HealthBody (health_check cfg).

(** [@app.get("/api/status")] *)
Definition get_api_status (cfg : Config) (client : Upstream) : State → Response.t * State :=
  route StatusBodyOf (api_status cfg client).

(** [@app.post("/api/chat", response_model=ChatResponse)]. The parameter
    [request: ChatRequest] of [chat] is a body parameter: the framework
    validates the JSON body against [ChatRequest] before it calls the
    handler, and answers 422 with the errors, without calling it, when the
    body is invalid. *)
Definition post_api_chat (cfg : Config) (client : Upstream) (current_time : Q)
    (body : RawChatRequest.t) (req_client : option string) (s : State)
  : Response.t * State :=
  match validate_ChatRequest cfg body with
  | inl errs =>
      ({| Response.status_code := 422; Response.body := ValidationDetail errs |}, s)
  | inr request => route ChatBody (chat cfg client current_time request req_client) s
  end.

(** ** Reading a run of a handler *)

(** The keyword arguments of the upstream completion calls in a trace, in
    the order of the calls. *)
Fixpoint upstream_calls (tr : list event) : list CreateArgs.t :=
  match tr with
  | [] => []
  | CalledCreate kwargs :: rest => kwargs :: upstream_calls rest
  | _ :: rest => upstream_calls rest
  end.

(** The client key of a request. *)
Definition client_key (req_client : option string) : string :=
  default "unknown" req_client.

(** The model a request resolves to: its own when it is in [valid_models],
    the default otherwise. *)
Definition resolved_model (request : ChatRequest.t) : option string :=
  if not_in_valid_models (ChatRequest.model request) then Some "gpt-3.5-turbo"
  else ChatRequest.model request.

(** The keyword arguments a request is forwarded with. *)
Definition forwarded (request : ChatRequest.t) : CreateArgs.t :=
  {| CreateArgs.model := resolved_model request;
     CreateArgs.messages :=
       (λ msg, [("role", Message.role msg); ("content", Message.content msg)])
         <$> ChatRequest.messages request;
     CreateArgs.max_tokens := ChatRequest.max_tokens request;
     CreateArgs.temperature := ChatRequest.temperature request |}.

(** The [usage] dict the handler builds from the provider's usage. *)
Definition usage_dict (u : option CompletionUsage.t) : option (list (string * Z)) :=
  match u with
  | Some u => Some [("prompt_tokens", CompletionUsage.prompt_tokens u);
                    ("completion_tokens", CompletionUsage.completion_tokens u);
                    ("total_tokens", CompletionUsage.total_tokens u)]
  | None => None
  end.

(** The limiter grants (or denies) the request of this client at this
    clock reading in this state. *)
Definition limiter_answers (cfg : Config) (current_time : Q) (req_client : option string)
    (s : State) (answer : bool) : Prop :=
  (check_rate_limit cfg current_time (client_key req_client) (rate_limit_store s)).1
  = Return answer.

(** A failure raised during the upstream call or the extraction of the
    response, with the text of the exception: the client raises, or the
    completion has no choice, or its first choice has no content. *)
Definition upstream_fails (client : Upstream) (kwargs : CreateArgs.t) (text : string) : Prop :=
  (∃ kind, chat_completions_create client kwargs = Failed kind text) ∨
  (∃ completion,
     chat_completions_create client kwargs = Returned completion ∧
     ChatCompletion.choices completion = [] ∧ text = exn_str IndexError) ∨
  (∃ completion choice rest,
     chat_completions_create client kwargs = Returned completion ∧
     ChatCompletion.choices completion = choice :: rest ∧
     ChatCompletionMessage.content (Choice.message choice) = None ∧
     text = exn_str ResponseValidationError).

(** The body with another [model] field. *)
Definition with_model (f : field string) (raw : RawChatRequest.t) : RawChatRequest.t :=
  {| RawChatRequest.messages := RawChatRequest.messages raw;
     RawChatRequest.model := f;
     RawChatRequest.max_tokens := RawChatRequest.max_tokens raw;
     RawChatRequest.temperature := RawChatRequest.temperature raw |}.

(** Stub providers for worked examples: one that answers "hi" and reports
    its usage, one whose calls fail in transport. *)
Definition stub_completion : ChatCompletion.t :=
  {| ChatCompletion.choices :=
       [{| Choice.message := {| ChatCompletionMessage.content := Some "hi" |} |}];
     ChatCompletion.model := "gpt-3.5-turbo";
     ChatCompletion.usage :=
       Some {| CompletionUsage.prompt_tokens := 5;
               CompletionUsage.completion_tokens := 1;
               CompletionUsage.total_tokens := 6 |} |}.

Definition stub_upstream : Upstream :=
  {| chat_completions_create := λ _, Returned stub_completion;
     models_list := Returned tt |}.

Definition unreachable_upstream : Upstream :=
  {| chat_completions_create := λ _, Failed TransportFailure "Connection error.";
     models_list := Failed TransportFailure "Connection error." |}.

Definition initial_state : State := {| rate_limit_store := ∅; trace := [] |}.

(** A client that has used up the default capacity. *)
Definition over_limit_state : State :=
  {| rate_limit_store := {["10.0.0.1" := replicate 100 0%Q]}; trace := [] |}.

(** ** The claims' wording, for comparison with the code *)

(** "Stored timestamps older than now - RATE_LIMIT_PERIOD". *)
Definition spec_older_than_window (cfg : Config) (now t : Q) : Prop :=
  (t < now - inject_Z (RATE_LIMIT_PERIOD cfg))%Q.

(** "Role is one of user/assistant/system and content length is in
    [1, 10000]". *)
Definition spec_message_ok (m : RawMessage.t) : Prop :=
  (∃ r, RawMessage.role m = Given r ∧ (r = "user" ∨ r = "assistant" ∨ r = "system")) ∧
  (∃ c, RawMessage.content m = Given c ∧ 1 ≤ Z.of_nat (String.length c) ≤ 10000).

(** "messages is present, non-empty, and of length at most 50; every message
    is well formed; max_tokens, when it holds a value, is in [1, MAX_TOKENS];
    temperature, when it holds a value, is in [0.0, 2.0]": the bounds as the
    schema applies them, to a key that is there and is not [null]. *)
Definition spec_accepts (cfg : Config) (raw : RawChatRequest.t) : Prop :=
  (∃ ms, RawChatRequest.messages raw = Given ms ∧ ms ≠ [] ∧
         Z.of_nat (length ms) ≤ 50 ∧ Forall spec_message_ok ms) ∧
  (∀ n, RawChatRequest.max_tokens raw = Given n → 1 ≤ n ≤ MAX_TOKENS cfg) ∧
  (∀ x, RawChatRequest.temperature raw = Given x → (0 <= x)%Q ∧ (x <= 2)%Q).

(** The wording "max_tokens, when present, is an integer in
    [1, MAX_TOKENS] (default 1024 when absent)", as a relation between the
    field of the body and the value of the validated request, under each
    reading of a key that holds [null]: present (and no integer, so no
    validated request), or absent (so the default). *)
Definition spec_max_tokens_as_worded (null_is_present : bool) (cfg : Config)
    (f : field Z) (validated_value : option Z) : Prop :=
  match f with
  | Missing => validated_value = Some 1024
  | Null => if null_is_present then False else validated_value = Some 1024
  | Given n => 1 ≤ n ≤ MAX_TOKENS cfg ∧ validated_value = Some n
  end.

Definition accepts (cfg : Config) (raw : RawChatRequest.t) : Prop :=
  ∃ request, validate_ChatRequest cfg raw = inr request.

Definition rejects (cfg : Config) (raw : RawChatRequest.t) : Prop :=
  ∃ errs, validate_ChatRequest cfg raw = inl errs.

(** Request bodies for worked examples: a message of role user, a body
    with only [messages] and [max_tokens], and a text of [n] characters. *)
Definition user_message (c : string) : RawMessage.t :=
  {| RawMessage.role := Given "user"; RawMessage.content := Given c |}.

Definition body_of (ms : list RawMessage.t) (mt : field Z) : RawChatRequest.t :=
  {| RawChatRequest.messages := Given ms; RawChatRequest.model := Missing;
     RawChatRequest.max_tokens := mt; RawChatRequest.temperature := Missing |}.

Fixpoint text (n : nat) : string :=
  match n with
  | O => ""
  | S n' => String (Ascii.ascii_of_nat 97) (text n')
  end.

(** ** Allowed hosts and CORS origins *)

Definition comma : Ascii.ascii := Ascii.ascii_of_nat 44.

(** [s.split(",")] *)
Fixpoint split_comma (s : string) : list string :=
  match s with
  | EmptyString => [""]
  | String c rest =>
      if decide (c = comma) then "" :: split_comma rest
      else match split_comma rest with
           | part :: parts => String c part :: parts
           | [] => [String c ""]
           end
  end.

(** [",".join(parts)] *)
Definition join_comma (parts : list string) : string := String.concat "," parts.

(** [ALLOWED_HOSTS = os.getenv("ALLOWED_HOSTS", "*").split(",")]; [value] is
    the environment variable, [None] when it is not set. *)
Definition ALLOWED_HOSTS (value : option string) : list string :=
  split_comma (default "*" value).

(** The [origins] handed to the CORS middleware. *)
Definition origins (cfg : Config) (allowed_hosts : list string) : list string :=
  if decide (ENVIRONMENT cfg = "production") then
    if decide (allowed_hosts ≠ ["*"]) then allowed_hosts else []
  else ["*"].

(** The number of commas of a string. *)
Fixpoint count_comma (s : string) : nat :=
  match s with
  | EmptyString => 0
  | String c rest => ((if decide (c = comma) then 1 else 0) + count_comma rest)%nat
  end.

(** ** Security headers *)

(** The headers of a response: a map from the header name in lower case,
    since header names are read and set without regard to case. *)
Definition lower_ascii (c : Ascii.ascii) : Ascii.ascii :=
  let n := Ascii.nat_of_ascii c in
  if (65 <=? n)%nat && (n <=? 90)%nat then Ascii.ascii_of_nat (n + 32) else c.

Fixpoint lower (s : string) : string :=
  match s with
  | EmptyString => EmptyString
  | String c rest => String (lower_ascii c) (lower rest)
  end.

Abbreviation Headers := (gmap string string).

(** [headers[name] = value] *)
Definition set_header (name value : string) (h : Headers) : Headers :=
  <[lower name := value]> h.

(** [headers.get(name)] *)
Definition get_header (name : string) (h : Headers) : option string :=
  h !! lower name.

(** A response on its way out: status and body, with its headers. *)
Module Served.
Record t := { response : Response.t; headers : Headers }.
End Served.

(** [async def add_security_headers(request, call_next)] *)
Definition add_security_headers {Request : Type} (request : Request)
    (call_next : Request → M State Served.t) : M State Served.t :=
  let* response := call_next request in
  let headers := Served.headers response in
  let headers := set_header "X-Content-Type-Options" "nosniff" headers in
  let headers := set_header "X-Frame-Options" "DENY" headers in
  let headers := set_header "X-XSS-Protection" "1; mode=block" headers in
  let headers :=
    set_header "Strict-Transport-Security" "max-age=31536000; includeSubDomains" headers in
  ret {| Served.response := Served.response response; Served.headers := headers |}.

(** The four headers the middleware sets, with their values. *)
Definition security_headers : list (string * string) :=
  [("X-Content-Type-Options", "nosniff"); ("X-Frame-Options", "DENY");
   ("X-XSS-Protection", "1; mode=block");
   ("Strict-Transport-Security", "max-age=31536000; includeSubDomains")].

(** ** The setup verification script ([setup.py]) *)

(** What the script reads of the machine it runs on: the interpreter's
    [sys.version_info] (major, minor, micro), which packages [__import__]
    finds, which paths exist, and the text of the [.env] file. *)
Record Machine := {
  version_info : Z * Z * Z;
  importable : string → bool;
  path_exists : string → bool;
  env_file : string;
}.

(** The script's standard output, one element per [print] call. *)
Abbreviation Stdout := (list string).

Definition print (line : string) : M Stdout unit :=
  modify (λ out, out ++ [line]).

Definition LF : string := String (Ascii.ascii_of_nat 10) "".

(** [s * n] *)
Fixpoint str_mul (s : string) (n : nat) : string :=
  match n with
  | O => ""
  | S n' => s +:+ str_mul s n'
  end.

(** [needle in hay] *)
Fixpoint contains (needle hay : string) : bool :=
  String.prefix needle hay ||
  match hay with
  | EmptyString => false
  | String _ rest => contains needle rest
  end.

(** [f"{major}.{minor}.{micro}"] *)
Definition version_text (v : Z * Z * Z) : string :=
  pretty v.1.1 +:+ "." +:+ pretty v.1.2 +:+ "." +:+ pretty v.2.

(** [def check_python_version()] *)
Definition check_python_version (m : Machine) : M Stdout bool :=
  let version := version_info m in
  let major := version.1.1 in
  let minor := version.1.2 in
  if decide (major < 3 ∨ (major = 3 ∧ minor < 8)) then
    print ("[X] Python 3.8+ required. You have " +:+ version_text version) ;;
    ret false
  else
    print ("[OK] Python version: " +:+ version_text version) ;;
    ret true.

Definition required_packages : list string :=
  ["fastapi"; "uvicorn"; "anthropic"; "dotenv"; "pydantic"].

(** [package if package != 'dotenv' else 'dotenv'] *)
Definition import_name (package : string) : string :=
  if decide (package ≠ "dotenv") then package else "dotenv".

(** The loop of [check_dependencies] over the packages still to try, with
    the packages found missing so far; [__import__] raises [ImportError]
    exactly for a package that is not importable. *)
Fixpoint import_each (m : Machine) (packages missing_packages : list string)
  : M Stdout (list string) :=
  match packages with
  | [] => ret missing_packages
  | package :: rest =>
      if importable m (import_name package) then
        print ("[OK] " +:+ package +:+ " installed") ;;
        import_each m rest missing_packages
      else
        print ("[X] " +:+ package +:+ " not installed") ;;
        import_each m rest (missing_packages ++ [package])
  end.

(** [def check_dependencies()] *)
Definition check_dependencies (m : Machine) : M Stdout bool :=
  let* missing_packages := import_each m required_packages [] in
  match missing_packages with
  | _ :: _ =>
      print (LF +:+ "[!] Missing packages. Run: pip install -r requirements.txt") ;;
      ret false
  | [] => ret true
  end.

(** [def check_env_file()] *)
Definition check_env_file (m : Machine) : M Stdout bool :=
  if negb (path_exists m ".env") then
    print "[X] .env file not found" ;;
    print "    Create one by copying .env.example:" ;;
    print "    Windows: copy .env.example .env" ;;
    print "    Mac/Linux: cp .env.example .env" ;;
    ret false
  else
    print "[OK] .env file exists" ;;
    let content := env_file m in
    if contains "your_api_key_here" content then
      print "[!] API key not set in .env file" ;;
      print "    Get your key from: https://console.anthropic.com/" ;;
      print "    Then update ANTHROPIC_API_KEY in .env file" ;;
      ret false
    else if contains "ANTHROPIC_API_KEY=" content then
      print "[OK] API key appears to be set" ;;
      ret true
    else ret false.

Definition required_files : list string := ["index.html"; "styles.css"; "app.js"].

(** The loop of [check_static_files]: it returns at the first file that
    does not exist. [static_dir / file] is the path [static/file]. *)
Fixpoint check_each_file (m : Machine) (files : list string) : M Stdout bool :=
  match files with
  | [] => ret true
  | file :: rest =>
      if negb (path_exists m ("static/" +:+ file)) then
        print ("[X] " +:+ file +:+ " not found in static/") ;;
        ret false
      else
        print ("[OK] " +:+ file +:+ " exists") ;;
        check_each_file m rest
  end.

(** [def check_static_files()] *)
Definition check_static_files (m : Machine) : M Stdout bool :=
  if negb (path_exists m "static") then
    print "[X] static/ directory not found" ;;
    ret false
  else
    print "[OK] static/ directory exists" ;;
    check_each_file m required_files.

(** The [checks] of [main]: each name with its function. *)
Definition checks (m : Machine) : list (string * M Stdout bool) :=
  [("Python Version", check_python_version m);
   ("Dependencies", check_dependencies m);
   ("Environment File", check_env_file m);
   ("Static Files", check_static_files m)].

(** The loop of [main] over the checks, with the results so far. *)
Fixpoint run_checks (todo : list (string * M Stdout bool)) (results : list bool)
  : M Stdout (list bool) :=
  match todo with
  | [] => ret results
  | (name, check_func) :: rest =>
      print (LF +:+ "Checking " +:+ name +:+ "...") ;;
      print (str_mul "-" 60) ;;
      let* result := check_func in
      print "" ;;
      run_checks rest (results ++ [result])
  end.

(** [def main()]: the exit code. *)
Definition main (m : Machine) : M Stdout Z :=
  print (str_mul "=" 60) ;;
  print "AI Chatbot - Setup Verification" ;;
  print (str_mul "=" 60) ;;
  print "" ;;
  let* results := run_checks (checks m) [] in
  print (str_mul "=" 60) ;;
  if forallb id results then
    print "[OK] All checks passed! You're ready to run the application." ;;
    print (LF +:+ "To start the server, run:") ;;
    print "  python main.py" ;;
    print (LF +:+ "Then open your browser to: http://localhost:8000") ;;
    ret 0
  else
    print "[X] Some checks failed. Please fix the issues above." ;;
    ret 1.

(** What each check decides, as read off its tests. *)
Definition version_ok (m : Machine) : Prop :=
  3 < (version_info m).1.1 ∨ ((version_info m).1.1 = 3 ∧ 8 ≤ (version_info m).1.2).

Definition dependencies_ok (m : Machine) : Prop :=
  ∀ package, package ∈ required_packages → importable m package = true.

Definition env_file_ok (m : Machine) : Prop :=
  path_exists m ".env" = true ∧
  (∀ pre post, env_file m ≠ pre +:+ "your_api_key_here" +:+ post) ∧
  (∃ pre post, env_file m = pre +:+ "ANTHROPIC_API_KEY=" +:+ post).

Definition static_files_ok (m : Machine) : Prop :=
  path_exists m "static" = true ∧
  ∀ file, file ∈ required_files → path_exists m ("static/" +:+ file) = true.

(** A check decides [P]: from every output so far it returns, having only
    added lines, and it returns [True] exactly when [P] holds. *)
Definition decides (check : M Stdout bool) (P : Prop) : Prop :=
  ∀ out, ∃ b lines, check out = (Return b, out ++ lines) ∧ (b = true ↔ P).

(** The status line of a package in [check_dependencies]. *)
Definition package_line (m : Machine) (package : string) : string :=
  if importable m package then "[OK] " +:+ package +:+ " installed"
  else "[X] " +:+ package +:+ " not installed".

(** A machine on which every check passes, for worked examples. *)
Definition ready_machine : Machine :=
  {| version_info := (3, 11, 4);
     importable := λ _, true;
     path_exists := λ _, true;
     env_file := "ANTHROPIC_API_KEY=sk-ant-000" |}.

(** * Properties *)

(** ** The rate limiter *)

Lemma clean_old_requests_alt cfg now l :
  clean_old_requests cfg now l =
  filter (λ t, (now - inject_Z (RATE_LIMIT_PERIOD cfg) < t)%Q) l.
Proof.
  unfold clean_old_requests. apply list_filter_iff. intros t. split; intros H; lra.
Qed.

(** The two lookups, the assignment and the in-place append of
    [check_rate_limit] collapse to one update of the key's record. *)
Lemma check_rate_limit_unfold cfg now k (s : Store) :
  check_rate_limit cfg now k s =
  let kept := clean_old_requests cfg now (record s k) in
  if decide (RATE_LIMIT_REQUESTS cfg ≤ Z.of_nat (length kept))
  then (Return false, <[k := kept]> s)
  else (Return true, <[k := kept ++ [now]]> s).
Proof.
  unfold check_rate_limit, record, bind, getitem, setitem, append_at, modify, ret.
  destruct (s !! k) as [l|] eqn:Hk; simpl.
  - rewrite lookup_insert_eq. case_decide; [done|].
    rewrite lookup_insert_eq, alter_insert_eq. done.
  - change (clean_old_requests cfg now []) with (@nil Q).
    rewrite insert_insert_eq, lookup_insert_eq. simpl. case_decide; [done|].
    rewrite lookup_insert_eq, alter_insert_eq. done.
Qed.

Lemma limiter_step_unfold cfg now k (s : Store) :
  limiter_step cfg (now, k) s =
  let kept := clean_old_requests cfg now (record s k) in
  if decide (RATE_LIMIT_REQUESTS cfg ≤ Z.of_nat (length kept))
  then (false, <[k := kept]> s)
  else (true, <[k := kept ++ [now]]> s).
Proof.
  unfold limiter_step. simpl. rewrite check_rate_limit_unfold. simpl.
  case_decide; done.
Qed.

Lemma record_insert_eq (s : Store) k l : record (<[k := l]> s) k = l.
Proof. unfold record. by rewrite lookup_insert_eq. Qed.

Lemma record_insert_ne (s : Store) k k' l : k ≠ k' → record (<[k := l]> s) k' = record s k'.
Proof. intros. unfold record. by rewrite lookup_insert_ne. Qed.

(** The record of the called key after a call. *)
Lemma record_step_eq cfg now k (s : Store) :
  record (limiter_step cfg (now, k) s).2 k =
  clean_old_requests cfg now (record s k)
  ++ (if (limiter_step cfg (now, k) s).1 then [now] else []).
Proof.
  rewrite limiter_step_unfold. simpl. case_decide; simpl.
  - by rewrite record_insert_eq, app_nil_r.
  - by rewrite record_insert_eq.
Qed.

Lemma record_step_ne cfg now k k' (s : Store) :
  k ≠ k' → record (limiter_step cfg (now, k) s).2 k' = record s k'.
Proof.
  intros. rewrite limiter_step_unfold. simpl.
  case_decide; simpl; by rewrite record_insert_ne.
Qed.

(** *** Keys are inserted and never removed *)

Lemma step_keeps_keys cfg call (s : Store) k' :
  is_Some (s !! k') → is_Some ((limiter_step cfg call s).2 !! k').
Proof.
  destruct call as [now k]. intros Hk'. rewrite limiter_step_unfold. simpl.
  case_decide; simpl; rewrite lookup_insert_is_Some; destruct (decide (k = k')); auto.
Qed.

Lemma step_inserts_key cfg now k (s : Store) :
  is_Some ((limiter_step cfg (now, k) s).2 !! k).
Proof.
  rewrite limiter_step_unfold. simpl.
  case_decide; simpl; rewrite lookup_insert_eq; eauto.
Qed.

Lemma run_keeps_keys cfg calls (s : Store) k :
  is_Some (s !! k) → is_Some (run_calls cfg calls s !! k).
Proof.
  revert s. induction calls as [|call rest IH]; intros s Hk; simpl; [done|].
  apply IH. by apply step_keeps_keys.
Qed.

Lemma run_inserts_keys cfg calls (s : Store) now k :
  (now, k) ∈ calls → is_Some (run_calls cfg calls s !! k).
Proof.
  revert s. induction calls as [|call rest IH]; intros s Hin; simpl.
  - by apply elem_of_nil in Hin.
  - apply elem_of_cons in Hin as [<- | Hin].
    + apply run_keeps_keys, step_inserts_key.
    + by apply IH.
Qed.

(** *** The length of every record is bounded *)

Lemma bounded_record B (s : Store) k :
  0 ≤ B → bounded B s → Z.of_nat (length (record s k)) ≤ B.
Proof.
  intros HB Hs. unfold record. destruct (s !! k) as [l|] eqn:Hk; simpl.
  - by apply (Hs k).
  - done.
Qed.

Lemma length_clean_old_requests cfg now l :
  (length (clean_old_requests cfg now l) ≤ length l)%nat.
Proof. apply length_filter. Qed.

Lemma step_bounded cfg B call (s : Store) :
  0 ≤ B → RATE_LIMIT_REQUESTS cfg ≤ B →
  bounded B s → bounded B (limiter_step cfg call s).2.
Proof.
  destruct call as [now k]. intros HB HN Hs k' l.
  rewrite limiter_step_unfold. simpl.
  pose proof (bounded_record B s k HB Hs) as Hrec.
  pose proof (length_clean_old_requests cfg now (record s k)) as Hlen.
  case_decide as Hfull; simpl; rewrite lookup_insert;
    case_decide as Hkk; try (by apply Hs); intros [= <-].
  - lia.
  - rewrite length_app. simpl. lia.
Qed.

Lemma run_bounded cfg B calls (s : Store) :
  0 ≤ B → RATE_LIMIT_REQUESTS cfg ≤ B →
  bounded B s → bounded B (run_calls cfg calls s).
Proof.
  intros HB HN. revert s.
  induction calls as [|call rest IH]; intros s Hs; simpl; [done|].
  apply IH. by apply step_bounded.
Qed.

Lemma bounded_empty B : bounded B (∅ : Store).
Proof. intros k l Hk. by rewrite lookup_empty in Hk. Qed.

(** *** Counting the requests inside the window *)

Lemma clean_clean cfg now t l :
  (t <= now)%Q →
  clean_old_requests cfg now (clean_old_requests cfg t l) = clean_old_requests cfg now l.
Proof.
  intros Ht. unfold clean_old_requests. apply list_filter_filter_l.
  intros x Hx. lra.
Qed.

Lemma clean_app cfg now l1 l2 :
  clean_old_requests cfg now (l1 ++ l2) =
  clean_old_requests cfg now l1 ++ clean_old_requests cfg now l2.
Proof. apply filter_app. Qed.

Lemma clean_singleton cfg now t :
  clean_old_requests cfg now [t] =
  if bool_decide (now - t < inject_Z (RATE_LIMIT_PERIOD cfg))%Q then [t] else [].
Proof.
  unfold clean_old_requests. rewrite filter_cons, filter_nil.
  case_bool_decide; case_decide; done.
Qed.

Lemma window_count_step cfg k now call (s : Store) :
  (call.1 <= now)%Q →
  length (clean_old_requests cfg now (record (limiter_step cfg call s).2 k)) =
  (length (clean_old_requests cfg now (record s k))
   + granted_in_window cfg k now [call] s)%nat.
Proof.
  destruct call as [t k']. simpl. intros Ht.
  destruct (decide (k' = k)) as [-> | Hne].
  - rewrite record_step_eq, clean_app, length_app.
    rewrite (clean_clean cfg now t _ Ht).
    rewrite (bool_decide_eq_true_2 (k = k)) by done.
    destruct (limiter_step cfg (t, k) s).1; simpl.
    + rewrite clean_singleton. case_bool_decide; simpl; lia.
    + lia.
  - rewrite record_step_ne by done.
    rewrite (bool_decide_eq_false_2 (k' = k)) by done.
    rewrite andb_false_r. simpl. lia.
Qed.

Lemma window_count cfg k now calls (s : Store) :
  Forall (λ call, (call.1 <= now)%Q) calls →
  length (clean_old_requests cfg now (record (run_calls cfg calls s) k)) =
  (length (clean_old_requests cfg now (record s k))
   + granted_in_window cfg k now calls s)%nat.
Proof.
  intros Hcalls. revert s.
  induction Hcalls as [|call rest Hcall Hrest IH]; intros s.
  - simpl. lia.
  - cbn [run_calls granted_in_window]. rewrite IH.
    rewrite (window_count_step cfg k now call s Hcall).
    cbn [granted_in_window]. lia.
Qed.

(** *** The claims about the limiter *)

(** With the default capacity of 100 requests per 60 seconds: after 100
    granted requests at clock reading 0, a request at 59 is denied and a
    request at 60 is granted. *)
Example default_capacity_101st_denied :
  let s := run_calls default_config (replicate 100 (0%Q, "10.0.0.1")) ∅ in
  length (record s "10.0.0.1") = 100%nat ∧
  (check_rate_limit default_config 59 "10.0.0.1" s).1 = Return false ∧
  (check_rate_limit default_config 60 "10.0.0.1" s).1 = Return true.
Proof. vm_compute. repeat split. Qed.

(** C2. Sliding window. (1) Denial: take any store and any sequence of
    calls made up to the clock reading [now]; if at least
    [RATE_LIMIT_REQUESTS] of them were calls for key [k] that were granted
    less than [RATE_LIMIT_PERIOD] before [now], the next call for [k] at
    [now] returns [False]. (2) Resumption: in any store the limiter reaches
    from the empty one, once a recorded (granted) request time of [k], in
    particular the oldest, is [RATE_LIMIT_PERIOD] or more before [now], the
    call for [k] at [now] returns [True]. *)
Theorem C2_sliding_window (cfg : Config) :
  (∀ (s : Store) (calls : list (Q * string)) (k : string) (now : Q),
     Forall (λ call, (call.1 <= now)%Q) calls →
     RATE_LIMIT_REQUESTS cfg ≤ Z.of_nat (granted_in_window cfg k now calls s) →
     (check_rate_limit cfg now k (run_calls cfg calls s)).1 = Return false)
  ∧
  (∀ (calls : list (Q * string)) (k : string) (now t : Q),
     t ∈ record (run_calls cfg calls ∅) k →
     (inject_Z (RATE_LIMIT_PERIOD cfg) <= now - t)%Q →
     (check_rate_limit cfg now k (run_calls cfg calls ∅)).1 = Return true).
Proof.
  split.
  - intros s calls k now Hcalls Hgranted.
    rewrite check_rate_limit_unfold. simpl.
    rewrite (window_count cfg k now calls s Hcalls).
    rewrite decide_True; [done | lia].
  - intros calls k now t Hin Hold.
    set (s := run_calls cfg calls ∅) in *.
    assert (Hb : bounded (Z.max 0 (RATE_LIMIT_REQUESTS cfg)) s).
    { apply run_bounded; [lia | lia | apply bounded_empty]. }
    pose proof (bounded_record _ s k (Z.le_max_l 0 _) Hb) as Hrec.
    assert (Hlt : (length (clean_old_requests cfg now (record s k))
                   < length (record s k))%nat).
    { apply (length_filter_lt _ _ t); [done | by apply Qle_not_lt]. }
    rewrite check_rate_limit_unfold. simpl.
    rewrite decide_False; [done | lia].
Qed.

(** Two granted requests within the minute, a third one denied, and a
    request granted again sixty seconds after the first. *)
Lemma C2_sliding_window_witness :
  (check_rate_limit two_per_minute 20 "10.0.0.1"
     (run_calls two_per_minute [(0%Q, "10.0.0.1"); (10%Q, "10.0.0.1")] ∅)).1
  = Return false
  ∧
  (check_rate_limit two_per_minute 60 "10.0.0.1"
     (run_calls two_per_minute [(0%Q, "10.0.0.1"); (10%Q, "10.0.0.1")] ∅)).1
  = Return true.
Proof.
  destruct (C2_sliding_window two_per_minute) as [Hdeny Hresume]. split.
  - apply Hdeny.
    + repeat constructor; simpl; unfold Qle; simpl; lia.
    + vm_compute. discriminate.
  - apply (Hresume _ _ _ 0%Q).
    + vm_compute. apply list_elem_of_here.
    + unfold Qle. simpl. lia.
Defined.

(** C7, as the code has it. A call of [check_rate_limit] for key [k] at
    clock reading [now] keeps of the key's record exactly the request times
    [t] with [now - RATE_LIMIT_PERIOD < t], in their order: a time that is
    [RATE_LIMIT_PERIOD] old or older is removed. If at least
    [RATE_LIMIT_REQUESTS] times are kept it stores them and returns [False]
    without appending; otherwise it stores them followed by [now] and
    returns [True]. *)
Theorem C7_prune_then_decide (cfg : Config) (s : Store) (k : string) (now : Q) :
  let kept := filter (λ t, (now - inject_Z (RATE_LIMIT_PERIOD cfg) < t)%Q) (record s k) in
  check_rate_limit cfg now k s =
  if decide (RATE_LIMIT_REQUESTS cfg ≤ Z.of_nat (length kept))
  then (Return false, <[k := kept]> s)
  else (Return true, <[k := kept ++ [now]]> s).
Proof.
  simpl. rewrite check_rate_limit_unfold. simpl.
  by rewrite clean_old_requests_alt.
Qed.

(** C7 as worded fails at the boundary: with the default period of 60, the
    request time 0 is exactly 60 seconds old at clock reading 60, so it is
    not older than [now - RATE_LIMIT_PERIOD], and yet the call removes it. *)
Lemma C7_boundary_counterexample :
  (60 - 0 == inject_Z (RATE_LIMIT_PERIOD default_config))%Q ∧
  ¬ spec_older_than_window default_config 60 0 ∧
  check_rate_limit default_config 60 "10.0.0.1" {["10.0.0.1" := [0%Q]]}
  = (Return true, {["10.0.0.1" := [60%Q]]}).
Proof.
  split; [reflexivity|]. split.
  - unfold spec_older_than_window, Qlt. simpl. lia.
  - vm_compute. reflexivity.
Qed.

(** C10. With a capacity that is not negative: after every sequence of
    calls from the empty store, every record holds at most
    [RATE_LIMIT_REQUESTS] request times and every key that was queried is
    in the store; and one more call, whatever it returns, leaves under its
    key the pruned record (followed by the clock reading when it returns
    [True]), so the pruning is stored on a denied call too, and the key is
    present even with an empty record; no key of the store is removed. *)
Theorem C10_records_bounded_keys_kept (cfg : Config) (calls : list (Q * string)) :
  0 ≤ RATE_LIMIT_REQUESTS cfg →
  let s := run_calls cfg calls ∅ in
  (∀ k l, s !! k = Some l → Z.of_nat (length l) ≤ RATE_LIMIT_REQUESTS cfg) ∧
  (∀ now k, (now, k) ∈ calls → is_Some (s !! k)) ∧
  (∀ now k,
     let r := limiter_step cfg (now, k) s in
     r.2 !! k = Some (clean_old_requests cfg now (record s k)
                      ++ (if r.1 then [now] else [])) ∧
     (∀ k', is_Some (s !! k') → is_Some (r.2 !! k'))).
Proof.
  intros HN s. split; [|split].
  - apply run_bounded; [done | lia | apply bounded_empty].
  - intros now k Hin. by apply (run_inserts_keys cfg calls ∅ now k).
  - intros now k r. split.
    + subst r. rewrite limiter_step_unfold. simpl.
      case_decide; simpl; rewrite lookup_insert_eq; [by rewrite app_nil_r | done].
    + intros k'. apply step_keeps_keys.
Qed.

Lemma C10_records_bounded_keys_kept_witness :
  0 ≤ RATE_LIMIT_REQUESTS two_per_minute ∧
  let calls := [(0%Q, "10.0.0.1"); (1%Q, "10.0.0.2"); (2%Q, "10.0.0.1"); (3%Q, "10.0.0.1")] in
  let s := run_calls two_per_minute calls ∅ in
  (∀ k l, s !! k = Some l → Z.of_nat (length l) ≤ RATE_LIMIT_REQUESTS two_per_minute) ∧
  (∀ now k, (now, k) ∈ calls → is_Some (s !! k)) ∧
  (∀ now k,
     let r := limiter_step two_per_minute (now, k) s in
     r.2 !! k = Some (clean_old_requests two_per_minute now (record s k)
                      ++ (if r.1 then [now] else [])) ∧
     (∀ k', is_Some (s !! k') → is_Some (r.2 !! k'))).
Proof.
  split.
  - simpl. lia.
  - apply (C10_records_bounded_keys_kept two_per_minute). simpl. lia.
Defined.

(** ** Validation *)

(** Closes an equivalence between "this combination is accepted" and "each
    part is", once the parts are split into errors and values. *)
Ltac ok_cases :=
  simpl; split;
  [ intros [? ?]; simplify_eq; repeat split; eauto
  | intros; repeat match goal with
                   | H : _ ∧ _ |- _ => destruct H
                   | H : ∃ _, _ |- _ => destruct H
                   end; simplify_eq; eauto ].

Lemma at_loc_inr {A} l (v : validated A) a : at_loc l v = inr a ↔ v = inr a.
Proof. destruct v; simpl; split; congruence. Qed.

Lemma at_loc_ok {A} l (v : validated A) : (∃ a, at_loc l v = inr a) ↔ (∃ a, v = inr a).
Proof. split; intros [a Ha]; exists a; by apply (at_loc_inr l). Qed.

Lemma role_pattern_spec r :
  r ∈ role_pattern ↔ r = "user" ∨ r = "assistant" ∨ r = "system".
Proof.
  unfold role_pattern. rewrite !elem_of_cons, elem_of_nil. tauto.
Qed.

Lemma validate_role_ok f :
  (∃ s, validate_role f = inr s) ↔
  (∃ r, f = Given r ∧ (r = "user" ∨ r = "assistant" ∨ r = "system")).
Proof.
  unfold validate_role. destruct f as [| |r]; simpl.
  - split; [intros [s Hs]; discriminate | intros (r & Hr & _); discriminate].
  - split; [intros [s Hs]; discriminate | intros (r & Hr & _); discriminate].
  - case_bool_decide as Hr.
    + split; [|by eauto]. intros _. exists r. split; [done|]. by apply role_pattern_spec.
    + split; [intros [s Hs]; discriminate|].
      intros (r' & [= <-] & Hr'). by apply role_pattern_spec in Hr'.
Qed.

Lemma validate_content_ok f :
  (∃ s, validate_content f = inr s) ↔
  (∃ c, f = Given c ∧ 1 ≤ Z.of_nat (String.length c) ≤ 10000).
Proof.
  unfold validate_content. destruct f as [| |c]; simpl.
  - split; [intros [s Hs]; discriminate | intros (r & Hr & _); discriminate].
  - split; [intros [s Hs]; discriminate | intros (r & Hr & _); discriminate].
  - repeat case_decide.
    + split; [intros [s Hs]; discriminate | intros (c' & [= <-] & Hc'); lia].
    + split; [intros [s Hs]; discriminate | intros (c' & [= <-] & Hc'); lia].
    + split; [|by eauto]. intros _. exists c. split; [done | lia].
Qed.

Lemma validate_Message_ok raw :
  (∃ m, validate_Message raw = inr m) ↔ spec_message_ok raw.
Proof.
  unfold spec_message_ok. rewrite <- validate_role_ok, <- validate_content_ok.
  rewrite <- (at_loc_ok (Key "role") (validate_role _)),
    <- (at_loc_ok (Key "content") (validate_content _)).
  unfold validate_Message.
  destruct (at_loc (Key "role") _) as [es|r], (at_loc (Key "content") _) as [es'|c];
    ok_cases.
Qed.

Lemma validate_items_ok i l :
  (∃ ms, validate_items i l = inr ms) ↔ Forall spec_message_ok l.
Proof.
  revert i. induction l as [|raw rest IH]; intros i; simpl.
  - split; [constructor | eauto].
  - rewrite Forall_cons, <- validate_Message_ok, <- (IH (S i)).
    rewrite <- (at_loc_ok (Index i) (validate_Message _)).
    destruct (at_loc (Index i) _) as [es|m], (validate_items (S i) rest) as [es'|ms];
      ok_cases.
Qed.

Lemma validate_messages_ok f :
  (∃ ms, validate_messages f = inr ms) ↔
  (∃ l, f = Given l ∧ l ≠ [] ∧ Z.of_nat (length l) ≤ 50 ∧ Forall spec_message_ok l).
Proof.
  unfold validate_messages. destruct f as [| |l].
  - split; [intros [s Hs]; discriminate | intros (r & Hr & _); discriminate].
  - split; [intros [s Hs]; discriminate | intros (r & Hr & _); discriminate].
  - repeat case_decide.
    + split; [intros [s Hs]; discriminate|].
      intros (l' & [= <-] & Hne & _). destruct l; [done | simpl in *; lia].
    + split; [intros [s Hs]; discriminate | intros (l' & [= <-] & _ & Hlen & _); lia].
    + rewrite validate_items_ok. split.
      * intros Hall. exists l. repeat split; [|lia|done].
        intros ->. simpl in *. lia.
      * by intros (l' & [= <-] & _ & _ & Hall).
Qed.

Lemma validate_max_tokens_ok cfg f :
  (∃ mt, validate_max_tokens cfg f = inr mt) ↔
  (∀ n, f = Given n → 1 ≤ n ≤ MAX_TOKENS cfg).
Proof.
  unfold validate_max_tokens. destruct f as [| |n].
  - split; [intros _ n [=] | eauto].
  - split; [intros _ n [=] | eauto].
  - repeat case_decide.
    + split; [intros [s Hs]; discriminate | intros Hn; specialize (Hn n eq_refl); lia].
    + split; [intros [s Hs]; discriminate | intros Hn; specialize (Hn n eq_refl); lia].
    + split; [intros _ n' [= <-]; lia | eauto].
Qed.

Lemma validate_temperature_ok f :
  (∃ t, validate_temperature f = inr t) ↔
  (∀ x, f = Given x → (0 <= x)%Q ∧ (x <= 2)%Q).
Proof.
  unfold validate_temperature. destruct f as [| |x].
  - split; [intros _ n [=] | eauto].
  - split; [intros _ n [=] | eauto].
  - repeat case_decide.
    + split; [intros [s Hs]; discriminate | intros Hx; specialize (Hx x eq_refl); lra].
    + split; [intros [s Hs]; discriminate | intros Hx; specialize (Hx x eq_refl); lra].
    + split; [intros _ x' [= <-]; lra | eauto].
Qed.

Lemma validate_model_ok f : ∃ m, validate_model f = inr m.
Proof. destruct f; simpl; eauto. Qed.

(** The body is accepted exactly when each of its fields is. *)
Lemma validate_ChatRequest_fields cfg raw :
  accepts cfg raw ↔
  (∃ ms, validate_messages (RawChatRequest.messages raw) = inr ms) ∧
  (∃ mt, validate_max_tokens cfg (RawChatRequest.max_tokens raw) = inr mt) ∧
  (∃ t, validate_temperature (RawChatRequest.temperature raw) = inr t).
Proof.
  unfold accepts, validate_ChatRequest.
  rewrite <- (at_loc_ok (Key "messages") (validate_messages _)),
    <- (at_loc_ok (Key "max_tokens") (validate_max_tokens _ _)),
    <- (at_loc_ok (Key "temperature") (validate_temperature _)).
  destruct (validate_model_ok (RawChatRequest.model raw)) as [m ->]. simpl.
  destruct (at_loc (Key "messages") _), (at_loc (Key "max_tokens") _),
    (at_loc (Key "temperature") _);
    ok_cases.
Qed.

Lemma accepts_iff_spec cfg raw : accepts cfg raw ↔ spec_accepts cfg raw.
Proof.
  rewrite validate_ChatRequest_fields. unfold spec_accepts.
  by rewrite validate_messages_ok, validate_max_tokens_ok, validate_temperature_ok.
Qed.

Lemma rejects_iff_not_accepts cfg raw : rejects cfg raw ↔ ¬ accepts cfg raw.
Proof.
  unfold rejects, accepts. destruct (validate_ChatRequest cfg raw) as [es|r].
  - split; [intros _ [r Hr]; discriminate | eauto].
  - split; [intros [es Hes]; discriminate | intros Hn; destruct Hn; eauto].
Qed.

(** The values the accepted request carries. *)
Lemma validate_ChatRequest_values cfg raw request :
  validate_ChatRequest cfg raw = inr request →
  validate_messages (RawChatRequest.messages raw) = inr (ChatRequest.messages request) ∧
  validate_model (RawChatRequest.model raw) = inr (ChatRequest.model request) ∧
  validate_max_tokens cfg (RawChatRequest.max_tokens raw) = inr (ChatRequest.max_tokens request) ∧
  validate_temperature (RawChatRequest.temperature raw) = inr (ChatRequest.temperature request).
Proof.
  unfold validate_ChatRequest.
  destruct (validate_messages _) as [?|ms], (validate_model _) as [?|m],
    (validate_max_tokens cfg _) as [?|mt], (validate_temperature _) as [?|t];
    simpl; try discriminate.
  by intros [= <-].
Qed.

Lemma spec_accepts_body_of cfg ms mt :
  ms ≠ [] → Z.of_nat (length ms) ≤ 50 → Forall spec_message_ok ms →
  (∀ n, mt = Given n → 1 ≤ n ≤ MAX_TOKENS cfg) →
  accepts cfg (body_of ms mt).
Proof.
  intros Hne Hlen Hall Hmt. apply accepts_iff_spec. unfold spec_accepts, body_of. simpl.
  split; [by exists ms|]. split; [done|]. intros x [=].
Qed.

Lemma spec_message_ok_user c :
  1 ≤ Z.of_nat (String.length c) ≤ 10000 → spec_message_ok (user_message c).
Proof.
  intros Hc. split; simpl; [exists "user" | exists c]; auto.
Qed.

Lemma rejects_status_422 cfg client now raw rc s :
  rejects cfg raw →
  Response.status_code (post_api_chat cfg client now raw rc s).1 = 422.
Proof.
  intros [errs Herrs]. unfold post_api_chat. by rewrite Herrs.
Qed.

(** C3, as the code has it. A request body is accepted exactly when
    [messages] holds between 1 and 50 messages, each with a role among user,
    assistant and system and a content of 1 to 10000 characters,
    [max_tokens], when it holds a value, is in [1, MAX_TOKENS], and
    [temperature], when it holds a value, is in [0, 2]; a body that is not
    accepted is rejected with validation errors, and the route answers 422.
    A missing [max_tokens] becomes 1024 and a missing [temperature] 1.0; a
    [null] in either field is accepted and kept as [None]. At the
    boundaries: 50 messages, a content of 10000 characters and
    [max_tokens = MAX_TOKENS] (for a ceiling of at least 1) are accepted
    when the rest of the body is well formed; no message, 51 messages, a
    content of 0 or 10001 characters, [max_tokens = 0] and
    [max_tokens = MAX_TOKENS + 1] are rejected. *)
Theorem C3_validation (cfg : Config) :
  (∀ raw, accepts cfg raw ↔ spec_accepts cfg raw) ∧
  (∀ raw, rejects cfg raw ↔ ¬ spec_accepts cfg raw) ∧
  (∀ raw client now rc s,
     rejects cfg raw →
     Response.status_code (post_api_chat cfg client now raw rc s).1 = 422) ∧
  (∀ raw request,
     validate_ChatRequest cfg raw = inr request →
     (RawChatRequest.max_tokens raw = Missing → ChatRequest.max_tokens request = Some 1024) ∧
     (RawChatRequest.temperature raw = Missing → ChatRequest.temperature request = Some 1%Q) ∧
     (RawChatRequest.max_tokens raw = Null → ChatRequest.max_tokens request = None) ∧
     (RawChatRequest.temperature raw = Null → ChatRequest.temperature request = None) ∧
     (∀ n, RawChatRequest.max_tokens raw = Given n → ChatRequest.max_tokens request = Some n) ∧
     (∀ x, RawChatRequest.temperature raw = Given x →
           ChatRequest.temperature request = Some x)) ∧
  (∀ raw, accepts cfg raw →
          accepts cfg {| RawChatRequest.messages := RawChatRequest.messages raw;
                         RawChatRequest.model := RawChatRequest.model raw;
                         RawChatRequest.max_tokens := Null;
                         RawChatRequest.temperature := Null |}) ∧
  (∀ ms, length ms = 50%nat → Forall spec_message_ok ms → accepts cfg (body_of ms Missing)) ∧
  (∀ c, Z.of_nat (String.length c) = 10000 → accepts cfg (body_of [user_message c] Missing)) ∧
  (1 ≤ MAX_TOKENS cfg → accepts cfg (body_of [user_message "hello"] (Given (MAX_TOKENS cfg)))) ∧
  (∀ raw, RawChatRequest.messages raw = Given [] → rejects cfg raw) ∧
  (∀ raw ms, RawChatRequest.messages raw = Given ms → length ms = 51%nat → rejects cfg raw) ∧
  (∀ raw ms m c,
     RawChatRequest.messages raw = Given ms → m ∈ ms → RawMessage.content m = Given c →
     Z.of_nat (String.length c) = 0 ∨ Z.of_nat (String.length c) = 10001 →
     rejects cfg raw) ∧
  (∀ raw, RawChatRequest.max_tokens raw = Given 0 → rejects cfg raw) ∧
  (∀ raw, RawChatRequest.max_tokens raw = Given (MAX_TOKENS cfg + 1) → rejects cfg raw).
Proof.
  split_and!.
  - intros raw. apply accepts_iff_spec.
  - intros raw. by rewrite rejects_iff_not_accepts, accepts_iff_spec.
  - intros raw client now rc s. apply rejects_status_422.
  - intros raw request H.
    assert (Hacc : accepts cfg raw) by by exists request.
    apply accepts_iff_spec in Hacc as (_ & Hbound & Hbound').
    apply validate_ChatRequest_values in H as (_ & _ & Hmt & Ht).
    split_and!.
    + intros Hf. rewrite Hf in Hmt. simpl in Hmt. congruence.
    + intros Hf. rewrite Hf in Ht. simpl in Ht. congruence.
    + intros Hf. rewrite Hf in Hmt. simpl in Hmt. congruence.
    + intros Hf. rewrite Hf in Ht. simpl in Ht. congruence.
    + intros n Hf. specialize (Hbound n Hf). rewrite Hf in Hmt. simpl in Hmt.
      rewrite !decide_False in Hmt by lia. congruence.
    + intros x Hf. destruct (Hbound' x Hf). rewrite Hf in Ht. simpl in Ht.
      rewrite !decide_False in Ht by lra. congruence.
  - intros raw Hacc. apply accepts_iff_spec in Hacc as (Hms & _ & _).
    apply accepts_iff_spec. split; [exact Hms|]. split; intros ? [=].
  - intros ms Hlen Hall. apply spec_accepts_body_of; [|lia|done|by intros n [=]].
    intros ->. discriminate.
  - intros c Hc. apply spec_accepts_body_of; [done|simpl; lia| |by intros n [=]].
    constructor; [|constructor]. apply spec_message_ok_user. lia.
  - intros HM. apply spec_accepts_body_of; [done|simpl; lia| |intros n [= <-]; lia].
    constructor; [|constructor]. apply spec_message_ok_user.
    change (String.length "hello") with 5%nat. lia.
  - intros raw Hms. apply rejects_iff_not_accepts. rewrite accepts_iff_spec.
    intros [(ms & Hms' & Hne & _) _]. congruence.
  - intros raw ms Hms Hlen. apply rejects_iff_not_accepts. rewrite accepts_iff_spec.
    intros [(ms' & Hms' & _ & Hlen' & _) _].
    rewrite Hms in Hms'. injection Hms' as <-. lia.
  - intros raw ms m c Hms Hin Hc Hlen. apply rejects_iff_not_accepts.
    rewrite accepts_iff_spec.
    intros [(ms' & Hms' & _ & _ & Hall) _].
    rewrite Hms in Hms'. injection Hms' as <-.
    rewrite Forall_forall in Hall. destruct (Hall m Hin) as [_ (c' & Hc' & Hlen')].
    rewrite Hc in Hc'. injection Hc' as <-. lia.
  - intros raw Hmt. apply rejects_iff_not_accepts. rewrite accepts_iff_spec.
    intros (_ & Hmt' & _). specialize (Hmt' 0 Hmt). lia.
  - intros raw Hmt. apply rejects_iff_not_accepts. rewrite accepts_iff_spec.
    intros (_ & Hmt' & _). specialize (Hmt' _ Hmt). lia.
Qed.

Lemma length_text n : String.length (text n) = n.
Proof. induction n as [|n IH]; [done|]. cbn [text String.length]. by f_equal. Qed.

(** The boundary cases on concrete bodies, with the default ceiling of 2048
    tokens. *)
Lemma C3_validation_witness :
  accepts default_config (body_of (replicate 50 (user_message "hello")) Missing) ∧
  accepts default_config (body_of [user_message (text (Z.to_nat 10000))] Missing) ∧
  accepts default_config (body_of [user_message "hello"] (Given 2048)) ∧
  rejects default_config (body_of [] Missing) ∧
  rejects default_config (body_of (replicate 51 (user_message "hello")) Missing) ∧
  rejects default_config (body_of [user_message ""] Missing) ∧
  rejects default_config (body_of [user_message (text (Z.to_nat 10001))] Missing) ∧
  rejects default_config (body_of [user_message "hello"] (Given 0)) ∧
  rejects default_config (body_of [user_message "hello"] (Given 2049)).
Proof.
  destruct (C3_validation default_config)
    as (_ & _ & _ & _ & _ & H50 & H10000 & Hmax & H0 & H51 & Hcontent & Hzero & Hover).
  split_and!.
  - apply H50; [reflexivity|]. apply Forall_replicate.
    apply spec_message_ok_user. change (String.length "hello") with 5%nat. lia.
  - apply H10000. rewrite length_text. lia.
  - apply Hmax. simpl. lia.
  - by apply H0.
  - by apply (H51 _ (replicate 51 (user_message "hello"))).
  - apply (Hcontent _ [user_message ""] (user_message "") "");
      [done | apply list_elem_of_here | done | by left].
  - apply (Hcontent _ [user_message (text (Z.to_nat 10001))] (user_message (text (Z.to_nat 10001))) (text (Z.to_nat 10001)));
      [done | apply list_elem_of_here | done | right].
    rewrite length_text. lia.
  - by apply Hzero.
  - by apply Hover.
Defined.

(** C3 as worded fails on a [null]: the body whose [max_tokens] is [null]
    is accepted and its validated [max_tokens] is [None]. If the key counts
    as present, the field is no integer in [1, MAX_TOKENS] and the body
    should be rejected; if it counts as absent, the value should be the
    default 1024. Neither is what the code does. *)
Lemma C3_null_counterexample :
  let raw := body_of [user_message "hello"] Null in
  ∃ request,
    validate_ChatRequest default_config raw = inr request ∧
    ChatRequest.max_tokens request = None ∧
    ¬ spec_max_tokens_as_worded true default_config
        (RawChatRequest.max_tokens raw) (ChatRequest.max_tokens request) ∧
    ¬ spec_max_tokens_as_worded false default_config
        (RawChatRequest.max_tokens raw) (ChatRequest.max_tokens request).
Proof.
  simpl. eexists. split; [vm_compute; reflexivity|]. simpl.
  split_and!; [done | by intros [] | discriminate].
Qed.

(** ** The chat handler *)

Lemma upstream_calls_app tr1 tr2 :
  upstream_calls (tr1 ++ tr2) = upstream_calls tr1 ++ upstream_calls tr2.
Proof.
  induction tr1 as [|e tr1 IH]; simpl; [done|].
  destruct e; simpl; by rewrite IH.
Qed.

Lemma chat_denied cfg client now request rc s :
  limiter_answers cfg now rc s false →
  chat cfg client now request rc s =
  (Raise (HTTPException 429 rate_limit_detail),
   {| rate_limit_store :=
        (check_rate_limit cfg now (client_key rc) (rate_limit_store s)).2;
      trace := trace s ++ [Logged WARNING (RateLimitExceeded (client_key rc))] |}).
Proof.
  unfold limiter_answers, client_key. intros Hdeny.
  unfold chat, bind, on_store. simpl.
  destruct (check_rate_limit cfg now (default "unknown" rc) (rate_limit_store s))
    as [o st] eqn:Hc.
  simpl in *. subst o. simpl. done.
Qed.

(** The run of [chat] for a granted request, by what the provider does. *)
Lemma chat_granted cfg client now request rc s :
  limiter_answers cfg now rc s true →
  let ip := client_key rc in
  let st := (check_rate_limit cfg now ip (rate_limit_store s)).2 in
  let pre :=
    trace s
    ++ (if not_in_valid_models (ChatRequest.model request)
        then [Logged WARNING (InvalidModelRequested (ChatRequest.model request))]
        else [])
    ++ [Logged INFO (ChatRequestFrom ip (resolved_model request));
        CalledCreate (forwarded request)] in
  let failed tr text :=
    (Raise (HTTPException 500 processing_failed_detail),
     {| rate_limit_store := st;
        trace := tr ++ [Logged ERROR (ErrorInChatEndpoint text)] |}) in
  chat cfg client now request rc s =
  match chat_completions_create client (forwarded request) with
  | Failed kind text => failed pre text
  | Returned completion =>
      match ChatCompletion.choices completion with
      | [] => failed pre (exn_str IndexError)
      | choice :: _ =>
          let usage := usage_dict (ChatCompletion.usage completion) in
          let pre' := pre ++ [Logged INFO (SuccessfulResponse ip usage)] in
          match ChatCompletionMessage.content (Choice.message choice) with
          | Some text =>
              (Return {| ChatResponse.response := text;
                         ChatResponse.model := ChatCompletion.model completion;
                         ChatResponse.usage := usage |},
               {| rate_limit_store := st; trace := pre' |})
          | None => failed pre' (exn_str ResponseValidationError)
          end
      end
  end.
Proof.
  unfold limiter_answers, client_key. intros Hgrant. simpl.
  unfold chat, bind, on_store. simpl.
  destruct (check_rate_limit cfg now (default "unknown" rc) (rate_limit_store s))
    as [o st] eqn:Hc.
  simpl in *. subst o. simpl.
  unfold try_except, bind, forwarded, resolved_model, usage_dict.
  unfold create, emit, modify, bind.
  destruct (not_in_valid_models (ChatRequest.model request)); simpl;
    (destruct (chat_completions_create client _) as [completion|kind text]; simpl;
     [ destruct (ChatCompletion.choices completion) as [|choice rest]; simpl;
       [ | destruct (ChatCompletionMessage.content (Choice.message choice)); simpl ]
     | ]);
    unfold raise; rewrite <- ?app_assoc; simpl; done.
Qed.

Lemma chat_denied_calls cfg client now request rc s :
  limiter_answers cfg now rc s false →
  upstream_calls (trace (chat cfg client now request rc s).2) = upstream_calls (trace s).
Proof.
  intros Hdeny. rewrite (chat_denied _ _ _ _ _ _ Hdeny). simpl.
  rewrite upstream_calls_app. simpl. by rewrite app_nil_r.
Qed.

Lemma chat_granted_calls cfg client now request rc s :
  limiter_answers cfg now rc s true →
  upstream_calls (trace (chat cfg client now request rc s).2)
  = upstream_calls (trace s) ++ [forwarded request].
Proof.
  intros Hgrant. rewrite (chat_granted _ _ _ _ _ _ Hgrant). simpl.
  destruct (chat_completions_create client _) as [completion|kind text]; simpl;
    [ destruct (ChatCompletion.choices completion) as [|choice rest]; simpl;
      [ | destruct (ChatCompletionMessage.content (Choice.message choice)); simpl ]
    | ];
    rewrite ?upstream_calls_app; simpl;
    destruct (not_in_valid_models _); simpl; by rewrite ?app_nil_r.
Qed.

Lemma chat_store cfg client now request rc s :
  rate_limit_store (chat cfg client now request rc s).2
  = (check_rate_limit cfg now (client_key rc) (rate_limit_store s)).2.
Proof.
  destruct (check_rate_limit cfg now (client_key rc) (rate_limit_store s)).1
    as [[|]|e] eqn:Hans.
  - rewrite (chat_granted _ _ _ _ _ _ Hans). simpl.
    destruct (chat_completions_create client _) as [completion|kind text]; simpl;
      [ destruct (ChatCompletion.choices completion) as [|choice rest]; simpl;
        [ | destruct (ChatCompletionMessage.content (Choice.message choice)); simpl ]
      | ]; done.
  - by rewrite (chat_denied _ _ _ _ _ _ Hans).
  - rewrite check_rate_limit_unfold in Hans. simpl in Hans.
    case_decide; discriminate.
Qed.

Lemma post_api_chat_valid cfg client now raw request rc s :
  validate_ChatRequest cfg raw = inr request →
  post_api_chat cfg client now raw rc s
  = route ChatBody (chat cfg client now request rc) s.
Proof. intros Hv. unfold post_api_chat. by rewrite Hv. Qed.

(** Validation keeps the messages: their number, their order, and the role
    and content of each. *)
Lemma validate_items_preserves i l ms :
  validate_items i l = inr ms →
  Forall2 (λ raw m, RawMessage.role raw = Given (Message.role m) ∧
                    RawMessage.content raw = Given (Message.content m)) l ms.
Proof.
  revert i ms. induction l as [|raw rest IH]; intros i ms; simpl.
  - intros [= <-]. constructor.
  - unfold validate_Message, validate_role, validate_content, required_str.
    destruct (RawMessage.role raw) as [| |r] eqn:Hr; simpl;
      try (destruct (at_loc _ _); discriminate).
    destruct (RawMessage.content raw) as [| |c] eqn:Hc; simpl;
      try (case_bool_decide; simpl; discriminate).
    case_bool_decide; simpl; repeat case_decide; simpl; try discriminate.
    destruct (validate_items (S i) rest) as [es|ms'] eqn:Hrest; simpl; [discriminate|].
    intros [= <-]. constructor; [done|]. by apply (IH (S i)).
Qed.

Lemma validate_messages_preserves f ms :
  validate_messages f = inr ms →
  ∃ l, f = Given l ∧
       Forall2 (λ raw m, RawMessage.role raw = Given (Message.role m) ∧
                         RawMessage.content raw = Given (Message.content m)) l ms.
Proof.
  unfold validate_messages. destruct f as [| |l]; try discriminate.
  repeat case_decide; try discriminate.
  intros Hitems. exists l. split; [done|]. by apply (validate_items_preserves 0).
Qed.

(** The response of [/api/chat] to a granted request whose completion has a
    first choice with a content. *)
Lemma post_api_chat_success cfg client now raw request rc s completion choice rest text :
  validate_ChatRequest cfg raw = inr request →
  limiter_answers cfg now rc s true →
  chat_completions_create client (forwarded request) = Returned completion →
  ChatCompletion.choices completion = choice :: rest →
  ChatCompletionMessage.content (Choice.message choice) = Some text →
  (post_api_chat cfg client now raw rc s).1 =
  {| Response.status_code := 200;
     Response.body :=
       ChatBody {| ChatResponse.response := text;
                   ChatResponse.model := ChatCompletion.model completion;
                   ChatResponse.usage := usage_dict (ChatCompletion.usage completion) |} |}.
Proof.
  intros Hv Hgrant Hcreate Hchoices Hcontent.
  rewrite (post_api_chat_valid _ _ _ _ _ _ _ Hv). unfold route. simpl.
  rewrite (chat_granted _ _ _ _ _ _ Hgrant). simpl.
  by rewrite Hcreate, Hchoices, Hcontent.
Qed.

(** A 200 answer of [/api/chat] carries what the provider returned. *)
Lemma post_api_chat_200 cfg client now raw request rc s resp :
  validate_ChatRequest cfg raw = inr request →
  limiter_answers cfg now rc s true →
  (post_api_chat cfg client now raw rc s).1
  = {| Response.status_code := 200; Response.body := ChatBody resp |} →
  ∃ completion,
    chat_completions_create client (forwarded request) = Returned completion ∧
    ChatResponse.model resp = ChatCompletion.model completion.
Proof.
  intros Hv Hgrant.
  rewrite (post_api_chat_valid _ _ _ _ _ _ _ Hv). unfold route. simpl.
  rewrite (chat_granted _ _ _ _ _ _ Hgrant). simpl.
  destruct (chat_completions_create client _) as [completion|kind text]; simpl;
    [ destruct (ChatCompletion.choices completion) as [|choice rest]; simpl;
      [ | destruct (ChatCompletionMessage.content (Choice.message choice)); simpl ]
    | ]; try discriminate.
  intros [= <-]. by exists completion.
Qed.

(** C1. A request that passes validation and is granted by the limiter is
    forwarded in exactly one upstream call: its messages in order, each with
    its role and content as in the body, with the resolved model,
    [max_tokens] and [temperature]. When the provider returns a completion
    whose first choice has a content, the answer is 200 with that content
    as [response], the provider's model as [model], and as [usage] the
    provider's three counts when it reports usage and [None] when it does
    not. *)
Theorem C1_forward_and_shape (cfg : Config) (client : Upstream) (now : Q)
    (raw : RawChatRequest.t) (request : ChatRequest.t) (rc : option string) (s : State) :
  validate_ChatRequest cfg raw = inr request →
  limiter_answers cfg now rc s true →
  let r := post_api_chat cfg client now raw rc s in
  (∃ kwargs,
     upstream_calls (trace r.2) = upstream_calls (trace s) ++ [kwargs] ∧
     (∃ l, RawChatRequest.messages raw = Given l ∧
           Forall2 (λ raw_msg kw,
                      ∃ role content,
                        RawMessage.role raw_msg = Given role ∧
                        RawMessage.content raw_msg = Given content ∧
                        kw = [("role", role); ("content", content)])
                   l (CreateArgs.messages kwargs)) ∧
     CreateArgs.model kwargs = resolved_model request ∧
     CreateArgs.max_tokens kwargs = ChatRequest.max_tokens request ∧
     CreateArgs.temperature kwargs = ChatRequest.temperature request ∧
     (∀ completion choice rest text,
        chat_completions_create client kwargs = Returned completion →
        ChatCompletion.choices completion = choice :: rest →
        ChatCompletionMessage.content (Choice.message choice) = Some text →
        ∃ resp,
          r.1 = {| Response.status_code := 200; Response.body := ChatBody resp |} ∧
          ChatResponse.response resp = text ∧
          ChatResponse.model resp = ChatCompletion.model completion ∧
          (∀ u, ChatCompletion.usage completion = Some u →
                ChatResponse.usage resp
                = Some [("prompt_tokens", CompletionUsage.prompt_tokens u);
                        ("completion_tokens", CompletionUsage.completion_tokens u);
                        ("total_tokens", CompletionUsage.total_tokens u)]) ∧
          (ChatCompletion.usage completion = None → ChatResponse.usage resp = None))).
Proof.
  intros Hv Hgrant r. exists (forwarded request). split_and!.
  - subst r. rewrite (post_api_chat_valid _ _ _ _ _ _ _ Hv). unfold route. simpl.
    by apply chat_granted_calls.
  - apply validate_ChatRequest_values in Hv as (Hms & _).
    apply validate_messages_preserves in Hms as (l & Hl & Hall).
    exists l. split; [done|]. simpl. apply Forall2_fmap_r.
    eapply Forall2_impl; [exact Hall|]. intros raw_msg m [Hr Hc].
    by exists (Message.role m), (Message.content m).
  - done.
  - done.
  - done.
  - intros completion choice rest text Hcreate Hchoices Hcontent.
    eexists. split; [by eapply post_api_chat_success|]. simpl.
    split_and!; [done | done | by intros u -> | by intros ->].
Qed.

(** The end-to-end example: one user message, a provider that answers "hi". *)
Lemma C1_forward_and_shape_witness :
  let raw := body_of [user_message "hello"] Missing in
  let r := post_api_chat default_config stub_upstream 0 raw (Some "10.0.0.1") initial_state in
  r.1 = {| Response.status_code := 200;
           Response.body :=
             ChatBody {| ChatResponse.response := "hi";
                         ChatResponse.model := "gpt-3.5-turbo";
                         ChatResponse.usage :=
                           Some [("prompt_tokens", 5); ("completion_tokens", 1);
                                 ("total_tokens", 6)] |} |} ∧
  upstream_calls (trace r.2)
  = [{| CreateArgs.model := Some "gpt-3.5-turbo";
        CreateArgs.messages := [[("role", "user"); ("content", "hello")]];
        CreateArgs.max_tokens := Some 1024;
        CreateArgs.temperature := Some 1%Q |}].
Proof.
  intros raw r.
  assert (Hv : validate_ChatRequest default_config raw
               = inr {| ChatRequest.messages :=
                          [{| Message.role := "user"; Message.content := "hello" |}];
                        ChatRequest.model := Some "gpt-3.5-turbo";
                        ChatRequest.max_tokens := Some 1024;
                        ChatRequest.temperature := Some 1%Q |})
    by (vm_compute; reflexivity).
  assert (Hgrant : limiter_answers default_config 0 (Some "10.0.0.1") initial_state true)
    by (vm_compute; reflexivity).
  destruct (C1_forward_and_shape default_config stub_upstream 0 raw _
              (Some "10.0.0.1") initial_state Hv Hgrant)
    as (kwargs & Hcalls & _ & Hmodel & Hmt & Ht & Hok).
  destruct (Hok stub_completion _ [] "hi" eq_refl eq_refl eq_refl)
    as (resp & Hr & Hresp & Hm & Husage & _).
  split.
  - fold raw in Hr. fold r in Hr. rewrite Hr. destruct resp as [re mo us]. simpl in *.
    rewrite Hresp, Hm, (Husage _ eq_refl). reflexivity.
  - vm_compute. reflexivity.
Defined.

Lemma accepts_with_model cfg raw f : accepts cfg raw → accepts cfg (with_model f raw).
Proof. rewrite !validate_ChatRequest_fields. done. Qed.

Lemma resolved_model_default request :
  not_in_valid_models (ChatRequest.model request) = true →
  resolved_model request = Some "gpt-3.5-turbo".
Proof. intros H. unfold resolved_model. by rewrite H. Qed.

Lemma resolved_model_valid request :
  ∃ m, resolved_model request = Some m ∧ m ∈ valid_models.
Proof.
  unfold resolved_model.
  destruct (not_in_valid_models (ChatRequest.model request)) eqn:Hm.
  - exists "gpt-3.5-turbo". split; [done|]. apply list_elem_of_here.
  - unfold not_in_valid_models in Hm.
    destruct (ChatRequest.model request) as [m|]; [|discriminate].
    exists m. split; [done|]. apply negb_false_iff in Hm. by apply bool_decide_eq_true in Hm.
Qed.

(** C4. For a request that passes validation and is granted by the limiter:
    the body stays acceptable whatever its [model] field holds; when that
    field is [null] or a value outside [valid_models], the one upstream call
    is made with the model gpt-3.5-turbo, and in every case with a model of
    [valid_models] (a missing field takes the schema's default,
    gpt-3.5-turbo); and every 200 answer carries as [model] the identifier
    of the completion the provider returned for that call. *)
Theorem C4_model_substitution (cfg : Config) (client : Upstream) (now : Q)
    (raw : RawChatRequest.t) (request : ChatRequest.t) (rc : option string) (s : State) :
  validate_ChatRequest cfg raw = inr request →
  limiter_answers cfg now rc s true →
  let r := post_api_chat cfg client now raw rc s in
  (∀ f, accepts cfg (with_model f raw)) ∧
  (∃ kwargs,
     upstream_calls (trace r.2) = upstream_calls (trace s) ++ [kwargs] ∧
     (∃ m, CreateArgs.model kwargs = Some m ∧ m ∈ valid_models) ∧
     (RawChatRequest.model raw = Missing ∨ RawChatRequest.model raw = Null ∨
      (∃ m, RawChatRequest.model raw = Given m ∧ m ∉ valid_models) →
      CreateArgs.model kwargs = Some "gpt-3.5-turbo") ∧
     (∀ m, RawChatRequest.model raw = Given m → m ∈ valid_models →
           CreateArgs.model kwargs = Some m) ∧
     (∀ resp,
        r.1 = {| Response.status_code := 200; Response.body := ChatBody resp |} →
        ∃ completion,
          chat_completions_create client kwargs = Returned completion ∧
          ChatResponse.model resp = ChatCompletion.model completion)).
Proof.
  intros Hv Hgrant r. split.
  - intros f. apply accepts_with_model. by exists request.
  - exists (forwarded request). split_and!.
    + subst r. rewrite (post_api_chat_valid _ _ _ _ _ _ _ Hv). unfold route. simpl.
      by apply chat_granted_calls.
    + apply resolved_model_valid.
    + apply validate_ChatRequest_values in Hv as (_ & Hm & _). simpl.
      intros [HM | [HN | (m & Hgiven & Hnot)]].
      * rewrite HM in Hm. injection Hm as Hm. unfold resolved_model. by rewrite <- Hm.
      * rewrite HN in Hm. injection Hm as Hm. unfold resolved_model. by rewrite <- Hm.
      * rewrite Hgiven in Hm. injection Hm as Hm. apply resolved_model_default.
        rewrite <- Hm. simpl. by rewrite bool_decide_eq_false_2.
    + apply validate_ChatRequest_values in Hv as (_ & Hm & _). simpl.
      intros m Hgiven Hin. rewrite Hgiven in Hm. injection Hm as Hm.
      unfold resolved_model. rewrite <- Hm. simpl. by rewrite bool_decide_eq_true_2.
    + intros resp Hr. by eapply post_api_chat_200.
Qed.

(** An unknown model: the call goes out with gpt-3.5-turbo. *)
Lemma C4_model_substitution_witness :
  let raw := with_model (Given "gpt-5") (body_of [user_message "hello"] Missing) in
  let r := post_api_chat default_config stub_upstream 0 raw (Some "10.0.0.1") initial_state in
  ∃ kwargs,
    upstream_calls (trace r.2) = [kwargs] ∧
    CreateArgs.model kwargs = Some "gpt-3.5-turbo".
Proof.
  intros raw r.
  assert (Hv : validate_ChatRequest default_config raw
               = inr {| ChatRequest.messages :=
                          [{| Message.role := "user"; Message.content := "hello" |}];
                        ChatRequest.model := Some "gpt-5";
                        ChatRequest.max_tokens := Some 1024;
                        ChatRequest.temperature := Some 1%Q |})
    by (vm_compute; reflexivity).
  assert (Hgrant : limiter_answers default_config 0 (Some "10.0.0.1") initial_state true)
    by (vm_compute; reflexivity).
  destruct (C4_model_substitution default_config stub_upstream 0 raw _
              (Some "10.0.0.1") initial_state Hv Hgrant)
    as (_ & kwargs & Hcalls & _ & Hsub & _).
  exists kwargs. split; [exact Hcalls|].
  apply Hsub. right. right. exists "gpt-5". split; [reflexivity|].
  apply (bool_decide_unpack _). vm_compute. exact I.
Defined.

(** C5. For a request that passes validation and is granted by the limiter,
    when the upstream call raises (transport, authentication or provider
    error) or the response cannot be extracted (no choice, no content), the
    answer is 500 with the fixed detail message, whatever the text of the
    exception; the text goes to the error log, the last event of the run. *)
Theorem C5_generic_failure (cfg : Config) (client : Upstream) (now : Q)
    (raw : RawChatRequest.t) (request : ChatRequest.t) (rc : option string) (s : State)
    (text : string) :
  validate_ChatRequest cfg raw = inr request →
  limiter_answers cfg now rc s true →
  upstream_fails client (forwarded request) text →
  let r := post_api_chat cfg client now raw rc s in
  r.1 = {| Response.status_code := 500;
           Response.body :=
             Detail "An error occurred while processing your request. Please try again." |} ∧
  last (trace r.2) = Some (Logged ERROR (ErrorInChatEndpoint text)).
Proof.
  intros Hv Hgrant Hfail r. subst r.
  rewrite (post_api_chat_valid _ _ _ _ _ _ _ Hv). unfold route. simpl.
  rewrite (chat_granted _ _ _ _ _ _ Hgrant). simpl.
  destruct Hfail as [[kind Hc] | [(completion & Hc & Hch & ->)
                                 | (completion & choice & rest & Hc & Hch & Hco & ->)]];
    rewrite Hc; simpl; rewrite ?Hch; simpl; rewrite ?Hco; simpl;
    rewrite last_snoc; done.
Qed.

(** A transport failure: 500 with the generic detail. *)
Lemma C5_generic_failure_witness :
  let raw := body_of [user_message "hello"] Missing in
  let r := post_api_chat default_config unreachable_upstream 0 raw (Some "10.0.0.1")
             initial_state in
  r.1 = {| Response.status_code := 500;
           Response.body :=
             Detail "An error occurred while processing your request. Please try again." |} ∧
  last (trace r.2) = Some (Logged ERROR (ErrorInChatEndpoint "Connection error.")).
Proof.
  intros raw r.
  assert (Hv : validate_ChatRequest default_config raw
               = inr {| ChatRequest.messages :=
                          [{| Message.role := "user"; Message.content := "hello" |}];
                        ChatRequest.model := Some "gpt-3.5-turbo";
                        ChatRequest.max_tokens := Some 1024;
                        ChatRequest.temperature := Some 1%Q |})
    by (vm_compute; reflexivity).
  assert (Hgrant : limiter_answers default_config 0 (Some "10.0.0.1") initial_state true)
    by (vm_compute; reflexivity).
  apply (C5_generic_failure default_config unreachable_upstream 0 raw _
           (Some "10.0.0.1") initial_state "Connection error." Hv Hgrant).
  left. exists TransportFailure. reflexivity.
Defined.

(** ** The order of validation and rate limiting *)

(** C6, as the code has it. The body is validated before the handler runs,
    and the limiter is consulted inside the handler. A body that fails
    validation is answered 422 and leaves the state as it was: the limiter
    is not consulted, nothing is recorded for the client, and no upstream
    call is made. A body that passes validation reaches the limiter, whose
    store is the store afterwards; when the limiter denies it, the answer is
    429 with the rate-limit detail and no upstream call is made. *)
Theorem C6_validation_then_limiter (cfg : Config) (client : Upstream) (now : Q)
    (raw : RawChatRequest.t) (rc : option string) (s : State) :
  let r := post_api_chat cfg client now raw rc s in
  (rejects cfg raw → Response.status_code r.1 = 422 ∧ r.2 = s) ∧
  (∀ request,
     validate_ChatRequest cfg raw = inr request →
     rate_limit_store r.2
     = (check_rate_limit cfg now (client_key rc) (rate_limit_store s)).2 ∧
     (limiter_answers cfg now rc s false →
      r.1 = {| Response.status_code := 429;
               Response.body := Detail "Rate limit exceeded. Please try again later." |} ∧
      upstream_calls (trace r.2) = upstream_calls (trace s))).
Proof.
  intros r. subst r. split.
  - intros [errs Herrs]. unfold post_api_chat. by rewrite Herrs.
  - intros request Hv. rewrite (post_api_chat_valid _ _ _ _ _ _ _ Hv).
    unfold route. simpl. split; [apply chat_store|].
    intros Hdeny. split; [|by apply chat_denied_calls].
    by rewrite (chat_denied _ _ _ _ _ _ Hdeny).
Qed.

(** A valid body of a client over its limit is answered 429; an invalid one
    is answered 422 and the record of the client is not touched. *)
Lemma C6_validation_then_limiter_witness :
  let valid := body_of [user_message "hello"] Missing in
  let invalid := body_of [] Missing in
  let rc := Some "10.0.0.1" in
  (post_api_chat default_config stub_upstream 1 valid rc over_limit_state).1
  = {| Response.status_code := 429;
       Response.body := Detail "Rate limit exceeded. Please try again later." |} ∧
  (post_api_chat default_config stub_upstream 1 invalid rc over_limit_state).2
  = over_limit_state.
Proof.
  intros valid invalid rc. split.
  - destruct (C6_validation_then_limiter default_config stub_upstream 1 valid rc
                over_limit_state) as [_ Hvalid].
    destruct (Hvalid {| ChatRequest.messages :=
                          [{| Message.role := "user"; Message.content := "hello" |}];
                        ChatRequest.model := Some "gpt-3.5-turbo";
                        ChatRequest.max_tokens := Some 1024;
                        ChatRequest.temperature := Some 1%Q |})
      as [_ Hdeny]; [vm_compute; reflexivity|].
    apply Hdeny. vm_compute. reflexivity.
  - destruct (C6_validation_then_limiter default_config stub_upstream 1 invalid rc
                over_limit_state) as [Hinvalid _].
    apply Hinvalid. eexists. vm_compute. reflexivity.
Defined.

(** C6 as worded fails: for a client that is over its limit (the limiter
    would answer [False]) and a body with no message, the answer is 422, not
    429, and the state is unchanged (no rate-limit warning is logged): the
    body was validated first and the handler did not run. *)
Lemma C6_limiter_first_counterexample :
  let invalid := body_of [] Missing in
  let rc := Some "10.0.0.1" in
  let r := post_api_chat default_config stub_upstream 1 invalid rc over_limit_state in
  limiter_answers default_config 1 rc over_limit_state false ∧
  validate_ChatRequest default_config invalid = inl [([Key "messages"], too_short)] ∧
  Response.status_code r.1 = 422 ∧
  Response.status_code r.1 ≠ 429 ∧
  r.2 = over_limit_state.
Proof.
  simpl. split_and!.
  - vm_compute. reflexivity.
  - vm_compute. reflexivity.
  - vm_compute. reflexivity.
  - vm_compute. discriminate.
  - vm_compute. reflexivity.
Qed.

(** ** Health and status *)

(** C8. [/health] answers 200 with the four static identity fields in
    every state and leaves the state as it is: it makes no upstream call.
    [/api/status] answers 200 with the configured environment and
    [MAX_TOKENS] whatever the probe does: with [api_available] false when
    listing the models raises, the text of the error going to the log, and
    with [api_available] true when it returns. *)
Theorem C8_health_and_status (cfg : Config) (s : State)
    (create : CreateArgs.t → upstream_result ChatCompletion.t)
    (kind : upstream_failure) (text : string) :
  get_health cfg s
  = ({| Response.status_code := 200;
        Response.body :=
          HealthBody [("status", "healthy"); ("service", "AI Chatbot");
                      ("version", "1.0.0"); ("environment", ENVIRONMENT cfg)] |}, s) ∧
  get_api_status cfg {| chat_completions_create := create;
                        models_list := Failed kind text |} s
  = ({| Response.status_code := 200;
        Response.body :=
          StatusBodyOf {| StatusBody.api_available := false;
                          StatusBody.environment := ENVIRONMENT cfg;
                          StatusBody.max_tokens := MAX_TOKENS cfg |} |},
     {| rate_limit_store := rate_limit_store s;
        trace := trace s ++ [CalledModelsList; Logged ERROR (OpenAIUnavailable text)] |}) ∧
  get_api_status cfg {| chat_completions_create := create;
                        models_list := Returned tt |} s
  = ({| Response.status_code := 200;
        Response.body :=
          StatusBodyOf {| StatusBody.api_available := true;
                          StatusBody.environment := ENVIRONMENT cfg;
                          StatusBody.max_tokens := MAX_TOKENS cfg |} |},
     {| rate_limit_store := rate_limit_store s;
        trace := trace s ++ [CalledModelsList] |}).
Proof.
  split_and!.
  - by destruct s.
  - unfold get_api_status, route, api_status, bind, try_except, list_models, bind,
      emit, modify, logger, emit, modify, of_upstream, raise, ret. simpl.
    by rewrite <- app_assoc.
  - reflexivity.
Qed.

(** * Further properties of the rate limiter *)

Lemma limiter_answer_total cfg now k (s : Store) :
  (check_rate_limit cfg now k s).1 = Return (limiter_step cfg (now, k) s).1.
Proof.
  rewrite limiter_step_unfold, check_rate_limit_unfold. simpl. case_decide; done.
Qed.

(** The answer and the new record of the called key depend on the key's
    record only. *)
Lemma limiter_step_local cfg now k (s1 s2 : Store) :
  record s1 k = record s2 k →
  (limiter_step cfg (now, k) s1).1 = (limiter_step cfg (now, k) s2).1 ∧
  record (limiter_step cfg (now, k) s1).2 k = record (limiter_step cfg (now, k) s2).2 k.
Proof.
  intros Heq. rewrite !limiter_step_unfold. simpl. rewrite Heq.
  case_decide; simpl; by rewrite !record_insert_eq.
Qed.

Lemma run_calls_local cfg k calls (s1 s2 : Store) :
  record s1 k = record s2 k →
  record (run_calls cfg (filter (λ call, call.2 = k) calls) s1) k
  = record (run_calls cfg calls s2) k.
Proof.
  revert s1 s2. induction calls as [|[t k'] rest IH]; intros s1 s2 Heq; [done|].
  rewrite filter_cons. simpl. case_decide as Hk.
  - subst k'. simpl. apply IH. by apply limiter_step_local.
  - apply IH. by rewrite record_step_ne.
Qed.

Lemma filter_length_id {A} (P : A → Prop) `{!∀ x, Decision (P x)} (l : list A) :
  (length l ≤ length (filter P l))%nat → filter P l = l.
Proof.
  induction l as [|x l IH]; [done|]. rewrite filter_cons. case_decide as Hx; simpl.
  - intros Hlen. f_equal. apply IH. lia.
  - intros Hlen. pose proof (length_filter P l). lia.
Qed.

Lemma run_record_origin cfg calls (s : Store) k t :
  t ∈ record (run_calls cfg calls s) k → t ∈ record s k ∨ (t, k) ∈ calls.
Proof.
  revert s. induction calls as [|[t' k'] rest IH]; intros s Hin; simpl in *; [by left|].
  apply IH in Hin as [Hin | Hin]; [|right; by apply elem_of_cons; right].
  destruct (decide (k' = k)) as [-> | Hne].
  - rewrite record_step_eq in Hin. apply elem_of_app in Hin as [Hin | Hin].
    + left. unfold clean_old_requests in Hin. by apply list_elem_of_filter in Hin as [_ Hin].
    + right. destruct (limiter_step cfg (t', k) s).1.
      * apply list_elem_of_singleton in Hin as ->. apply list_elem_of_here.
      * by apply elem_of_nil in Hin.
  - left. by rewrite record_step_ne in Hin.
Qed.

(** X1. The guarantee of the limiter: with a capacity that is not negative,
    among the calls made from process start up to a clock reading [now], at
    most [RATE_LIMIT_REQUESTS] calls of one key were granted less than
    [RATE_LIMIT_PERIOD] before [now]. *)
Theorem X1_capacity_never_exceeded (cfg : Config) (calls : list (Q * string))
    (k : string) (now : Q) :
  0 ≤ RATE_LIMIT_REQUESTS cfg →
  Forall (λ call, (call.1 <= now)%Q) calls →
  Z.of_nat (granted_in_window cfg k now calls ∅) ≤ RATE_LIMIT_REQUESTS cfg.
Proof.
  intros HN Hcalls.
  pose proof (window_count cfg k now calls ∅ Hcalls) as Hcount.
  change (record ∅ k) with (@nil Q) in Hcount. simpl in Hcount.
  pose proof (length_clean_old_requests cfg now (record (run_calls cfg calls ∅) k)) as Hlen.
  assert (Hb : bounded (RATE_LIMIT_REQUESTS cfg) (run_calls cfg calls ∅)).
  { apply run_bounded; [done | lia | apply bounded_empty]. }
  pose proof (bounded_record _ _ k HN Hb). lia.
Qed.

(** Three calls within the minute under a capacity of two: two are granted. *)
Lemma X1_capacity_never_exceeded_witness :
  Z.of_nat (granted_in_window two_per_minute "10.0.0.1" 20
              [(0%Q, "10.0.0.1"); (10%Q, "10.0.0.1"); (20%Q, "10.0.0.1")] ∅) ≤ 2.
Proof.
  apply (X1_capacity_never_exceeded two_per_minute).
  - simpl. lia.
  - repeat constructor; simpl; unfold Qle; simpl; lia.
Defined.

(** X2. Keys do not interfere: the record of a key after a sequence of
    calls, and the answer to its next call, are those the key's own calls
    alone would give; the calls of other keys change nothing for it. *)
Theorem X2_keys_are_independent (cfg : Config) (calls : list (Q * string))
    (s : Store) (k : string) (now : Q) :
  let own := filter (λ call, call.2 = k) calls in
  record (run_calls cfg calls s) k = record (run_calls cfg own s) k ∧
  (check_rate_limit cfg now k (run_calls cfg calls s)).1
  = (check_rate_limit cfg now k (run_calls cfg own s)).1.
Proof.
  simpl.
  assert (Heq : record (run_calls cfg (filter (λ call, call.2 = k) calls) s) k
                = record (run_calls cfg calls s) k) by by apply run_calls_local.
  split; [done|]. rewrite !limiter_answer_total. f_equal.
  by apply limiter_step_local.
Qed.

(** X3. A denied call changes no record: in every store the limiter reaches
    from the empty one, when a call returns [False] every key has the same
    request times after it as before. *)
Theorem X3_denied_call_keeps_records (cfg : Config) (calls : list (Q * string))
    (now : Q) (k : string) :
  let s := run_calls cfg calls ∅ in
  (check_rate_limit cfg now k s).1 = Return false →
  ∀ k', record (check_rate_limit cfg now k s).2 k' = record s k'.
Proof.
  intros s Hdeny k'. rewrite check_rate_limit_unfold in *. simpl in *.
  case_decide as Hfull; [|discriminate]. simpl.
  destruct (decide (k = k')) as [<- | Hne]; [|by rewrite record_insert_ne].
  rewrite record_insert_eq. apply filter_length_id.
  assert (Hb : bounded (Z.max 0 (RATE_LIMIT_REQUESTS cfg)) s).
  { apply run_bounded; [lia | lia | apply bounded_empty]. }
  pose proof (bounded_record _ s k (Z.le_max_l 0 _) Hb) as Hrec.
  fold (clean_old_requests cfg now (record s k)).
  pose proof (length_clean_old_requests cfg now (record s k)). lia.
Qed.

Lemma X3_denied_call_keeps_records_witness :
  let s := run_calls two_per_minute [(0%Q, "10.0.0.1"); (10%Q, "10.0.0.1")] ∅ in
  (check_rate_limit two_per_minute 20 "10.0.0.1" s).1 = Return false ∧
  record (check_rate_limit two_per_minute 20 "10.0.0.1" s).2 "10.0.0.1"
  = record s "10.0.0.1".
Proof.
  split; [vm_compute; reflexivity|].
  apply (X3_denied_call_keeps_records two_per_minute
           [(0%Q, "10.0.0.1"); (10%Q, "10.0.0.1")] 20 "10.0.0.1").
  vm_compute. reflexivity.
Defined.

(** X4. Nothing is recorded but the clock readings of the calls: every
    request time in the record of a key, in a store reached from the empty
    one, is the clock reading of a call for that key. *)
Theorem X4_recorded_times_are_call_times (cfg : Config) (calls : list (Q * string))
    (k : string) (t : Q) :
  t ∈ record (run_calls cfg calls ∅) k → (t, k) ∈ calls.
Proof.
  intros Hin. apply run_record_origin in Hin as [Hin | Hin]; [|done].
  by apply elem_of_nil in Hin.
Qed.

Lemma X4_recorded_times_are_call_times_witness :
  (10%Q, "10.0.0.1") ∈ [(0%Q, "10.0.0.1"); (10%Q, "10.0.0.1")].
Proof.
  apply (X4_recorded_times_are_call_times two_per_minute).
  vm_compute. apply list_elem_of_further, list_elem_of_here.
Defined.

Lemma StronglySorted_filter {A} (R : relation A) (P : A → Prop)
    `{!∀ x, Decision (P x)} (l : list A) :
  StronglySorted R l → StronglySorted R (filter P l).
Proof.
  induction 1 as [|x l Hl IH Hx]; [constructor|].
  rewrite filter_cons. case_decide; [|done].
  constructor; [done|].
  rewrite Forall_forall in Hx |- *. intros y Hy.
  apply list_elem_of_filter in Hy as [_ Hy]. by apply Hx.
Qed.

Lemma StronglySorted_snoc {A} (R : relation A) (l : list A) (y : A) :
  StronglySorted R l → Forall (λ x, R x y) l → StronglySorted R (l ++ [y]).
Proof.
  induction 1 as [|x l Hl IH Hx]; intros Hy; simpl.
  - repeat constructor.
  - apply Forall_cons in Hy as [Hxy Hy].
    constructor; [by apply IH|].
    apply Forall_app. split; [done|]. by constructor.
Qed.

Lemma step_ascending cfg call rest (s : Store) :
  Forall (λ later : Q * string, (call.1 <= later.1)%Q) rest →
  ascending_before (call :: rest) s →
  ascending_before rest (limiter_step cfg call s).2.
Proof.
  destruct call as [now k]. simpl. intros Hrest Hs k'.
  destruct (Hs k') as [Hsorted Hbefore].
  destruct (decide (k = k')) as [<- | Hne]; [|rewrite record_step_ne by done; split].
  - rewrite record_step_eq.
    assert (Hkept : Forall (λ t, (t <= now)%Q ∧ Forall (λ later : Q * string, (t <= later.1)%Q) rest)
                      (clean_old_requests cfg now (record s k))).
    { rewrite Forall_forall in Hbefore |- *. intros t Ht.
      apply list_elem_of_filter in Ht as [_ Ht].
      specialize (Hbefore t Ht). by apply Forall_cons in Hbefore. }
    destruct (limiter_step cfg (now, k) s).1.
    + split.
      * apply StronglySorted_snoc; [by apply StronglySorted_filter|].
        eapply Forall_impl; [exact Hkept|]. by intros t [Ht _].
      * apply Forall_app. split.
        -- eapply Forall_impl; [exact Hkept|]. by intros t [_ Ht].
        -- by constructor.
    + rewrite app_nil_r. split; [by apply StronglySorted_filter|].
      eapply Forall_impl; [exact Hkept|]. by intros t [_ Ht].
  - done.
  - eapply Forall_impl; [exact Hbefore|]. intros t Ht. by apply Forall_cons in Ht as [_ Ht].
Qed.

Lemma run_ascending cfg calls (s : Store) k :
  StronglySorted (λ a b : Q * string, (a.1 <= b.1)%Q) calls →
  ascending_before calls s →
  StronglySorted Qle (record (run_calls cfg calls s) k).
Proof.
  intros Hcalls. revert s.
  induction Hcalls as [|call rest Hrest IH Hcall]; intros s Hs; simpl.
  - by destruct (Hs k).
  - apply IH. by apply step_ascending.
Qed.

(** X5. With a clock that never goes back, every record is in ascending
    order: the first request time of a record is its oldest. *)
Theorem X5_records_ascending (cfg : Config) (calls : list (Q * string)) (k : string) :
  StronglySorted (λ a b : Q * string, (a.1 <= b.1)%Q) calls →
  let l := record (run_calls cfg calls ∅) k in
  StronglySorted Qle l ∧
  (∀ oldest t, head l = Some oldest → t ∈ l → (oldest <= t)%Q).
Proof.
  intros Hcalls l.
  assert (Hsorted : StronglySorted Qle l).
  { apply run_ascending; [done|]. intros k'. change (record ∅ k') with (@nil Q).
    split; constructor. }
  split; [done|]. intros oldest t Hhead Hin.
  destruct l as [|x l']; [discriminate|]. injection Hhead as ->.
  apply StronglySorted_inv in Hsorted as [_ Hall].
  apply elem_of_cons in Hin as [-> | Hin]; [apply Qle_refl|].
  rewrite Forall_forall in Hall. by apply Hall.
Qed.

Lemma X5_records_ascending_witness :
  let l := record (run_calls two_per_minute
                     [(0%Q, "10.0.0.1"); (10%Q, "10.0.0.2"); (70%Q, "10.0.0.1");
                      (80%Q, "10.0.0.1")] ∅) "10.0.0.1" in
  StronglySorted Qle l ∧
  (∀ oldest t, head l = Some oldest → t ∈ l → (oldest <= t)%Q).
Proof.
  apply (X5_records_ascending two_per_minute).
  repeat constructor; simpl; unfold Qle; simpl; lia.
Defined.

Lemma dom_step cfg now k (s : Store) :
  dom (limiter_step cfg (now, k) s).2 = {[k]} ∪ dom s.
Proof.
  rewrite limiter_step_unfold. simpl. case_decide; simpl; by rewrite dom_insert_L.
Qed.

(** X6. The keys of the store are exactly the client keys that were ever
    queried: a call adds its key if it is new, whatever it returns, and no
    call removes one, so the store grows with the number of distinct
    clients. *)
Theorem X6_keys_are_the_queried_clients (cfg : Config) (calls : list (Q * string))
    (s : Store) :
  dom (run_calls cfg calls s) = dom s ∪ list_to_set (calls.*2) ∧
  (size (dom s) ≤ size (dom (run_calls cfg calls s)))%nat.
Proof.
  assert (Hdom : dom (run_calls cfg calls s) = dom s ∪ list_to_set (calls.*2)).
  { revert s. induction calls as [|[now k] rest IH]; intros s; simpl.
    - by rewrite (right_id_L ∅ (∪)).
    - rewrite IH, dom_step.
      by rewrite (comm_L (∪) {[k]} (dom s)), <- (assoc_L (∪)). }
  split; [done|]. rewrite Hdom. apply subseteq_size, union_subseteq_l.
Qed.

(** X7. With a capacity of zero or less the limiter denies every call, in
    every store, and records no request time; every valid body of
    [/api/chat] is then answered 429, so that the endpoint answers 422 or
    429 only and calls the provider never. *)
Theorem X7_no_capacity_denies_all (cfg : Config) :
  RATE_LIMIT_REQUESTS cfg ≤ 0 →
  (∀ (s : Store) now k, (check_rate_limit cfg now k s).1 = Return false) ∧
  (∀ calls k, record (run_calls cfg calls ∅) k = []) ∧
  (∀ client now raw rc s,
     let r := post_api_chat cfg client now raw rc s in
     (Response.status_code r.1 = 422 ∨ Response.status_code r.1 = 429) ∧
     upstream_calls (trace r.2) = upstream_calls (trace s)).
Proof.
  intros HN.
  assert (Hdeny : ∀ (s : Store) now k, (check_rate_limit cfg now k s).1 = Return false).
  { intros s now k. rewrite check_rate_limit_unfold. simpl.
    rewrite decide_True; [done | lia]. }
  split_and!; [done| |].
  - intros calls k.
    assert (Hb : bounded 0 (run_calls cfg calls ∅)).
    { apply run_bounded; [lia | lia | apply bounded_empty]. }
    pose proof (bounded_record 0 _ k ltac:(lia) Hb) as Hlen.
    destruct (record (run_calls cfg calls ∅) k); [done | simpl in Hlen; lia].
  - intros client now raw rc s r. subst r.
    destruct (validate_ChatRequest cfg raw) as [errs|request] eqn:Hv.
    + unfold post_api_chat. rewrite Hv. simpl. by split; [left|].
    + rewrite (post_api_chat_valid _ _ _ _ _ _ _ Hv). unfold route. simpl.
      assert (Hd : limiter_answers cfg now rc s false) by apply Hdeny.
      split; [right; by rewrite (chat_denied _ _ _ _ _ _ Hd) | by apply chat_denied_calls].
Qed.

Lemma X7_no_capacity_denies_all_witness :
  (check_rate_limit
     {| ENVIRONMENT := "development"; MAX_TOKENS := 2048;
        RATE_LIMIT_REQUESTS := 0; RATE_LIMIT_PERIOD := 60 |} 0 "10.0.0.1" ∅).1
  = Return false.
Proof.
  apply (X7_no_capacity_denies_all
           {| ENVIRONMENT := "development"; MAX_TOKENS := 2048;
              RATE_LIMIT_REQUESTS := 0; RATE_LIMIT_PERIOD := 60 |}).
  simpl. lia.
Defined.

(** X8. With a period of zero or less and a capacity of at least one, the
    limiter limits nothing: a call whose clock reading is not before the
    recorded times of its key is granted, and leaves that reading as the
    only recorded time. *)
Theorem X8_no_period_grants_all (cfg : Config) (s : Store) (now : Q) (k : string) :
  RATE_LIMIT_PERIOD cfg ≤ 0 →
  1 ≤ RATE_LIMIT_REQUESTS cfg →
  Forall (λ t, (t <= now)%Q) (record s k) →
  check_rate_limit cfg now k s = (Return true, <[k := [now]]> s).
Proof.
  intros HP HN Hpast. rewrite check_rate_limit_unfold. simpl.
  assert (Hnone : clean_old_requests cfg now (record s k) = []).
  { unfold clean_old_requests. induction Hpast as [|t l Ht Hl IH]; [done|].
    rewrite filter_cons, decide_False; [done|].
    assert (inject_Z (RATE_LIMIT_PERIOD cfg) <= 0)%Q.
    { change 0%Q with (inject_Z 0). by rewrite <- Zle_Qle. }
    lra. }
  rewrite Hnone. simpl. rewrite decide_False; [done | lia].
Qed.

Lemma X8_no_period_grants_all_witness :
  check_rate_limit
    {| ENVIRONMENT := "development"; MAX_TOKENS := 2048;
       RATE_LIMIT_REQUESTS := 1; RATE_LIMIT_PERIOD := 0 |} 5 "10.0.0.1"
    {["10.0.0.1" := [5%Q]]}
  = (Return true, <["10.0.0.1" := [5%Q]]> {["10.0.0.1" := [5%Q]]}).
Proof.
  apply (X8_no_period_grants_all
           {| ENVIRONMENT := "development"; MAX_TOKENS := 2048;
              RATE_LIMIT_REQUESTS := 1; RATE_LIMIT_PERIOD := 0 |}).
  - simpl. lia.
  - simpl. lia.
  - vm_compute. repeat constructor. discriminate.
Defined.

(** * Further properties of the chat endpoint *)

Lemma limiter_answers_cases cfg now rc s :
  limiter_answers cfg now rc s true ∨ limiter_answers cfg now rc s false.
Proof.
  unfold limiter_answers. rewrite limiter_answer_total.
  destruct (limiter_step cfg _ _).1; auto.
Qed.

Lemma limiter_answers_excl cfg now rc s :
  limiter_answers cfg now rc s true → limiter_answers cfg now rc s false → False.
Proof. unfold limiter_answers. intros ->. discriminate. Qed.

(** The answer to a granted request is 200 or 500, the latter with the
    fixed detail. *)
Lemma chat_granted_status cfg client now request rc s :
  limiter_answers cfg now rc s true →
  let r := respond ChatBody (chat cfg client now request rc s).1 in
  (Response.status_code r = 200 ∧ ∃ resp, Response.body r = ChatBody resp) ∨
  (Response.status_code r = 500 ∧ Response.body r = Detail processing_failed_detail).
Proof.
  intros Hgrant. rewrite (chat_granted _ _ _ _ _ _ Hgrant). simpl.
  destruct (chat_completions_create client _) as [completion|kind text]; simpl;
    [ destruct (ChatCompletion.choices completion) as [|choice rest]; simpl;
      [ | destruct (ChatCompletionMessage.content (Choice.message choice)); simpl ]
    | ]; eauto.
Qed.

(** X9. The outcomes of [/api/chat]. The answer is 422 exactly for a body
    that fails validation, 429 exactly for a valid body the limiter denies,
    and 200 or 500 exactly for a valid body the limiter grants; there is no
    other status. A 429 carries the rate-limit detail and a 500 the fixed
    processing detail. The provider is called once when the answer is 200
    or 500, and not at all otherwise. *)
Theorem X9_chat_outcomes (cfg : Config) (client : Upstream) (now : Q)
    (raw : RawChatRequest.t) (rc : option string) (s : State) :
  let r := post_api_chat cfg client now raw rc s in
  let status := Response.status_code r.1 in
  (status = 422 ↔ rejects cfg raw) ∧
  (status = 429 ↔ accepts cfg raw ∧ limiter_answers cfg now rc s false) ∧
  (status = 200 ∨ status = 500 ↔ accepts cfg raw ∧ limiter_answers cfg now rc s true) ∧
  (status = 200 ∨ status = 422 ∨ status = 429 ∨ status = 500) ∧
  (status = 429 → Response.body r.1 = Detail "Rate limit exceeded. Please try again later.") ∧
  (status = 500 →
   Response.body r.1
   = Detail "An error occurred while processing your request. Please try again.") ∧
  length (upstream_calls (trace r.2))
  = if decide (status = 200 ∨ status = 500)
    then S (length (upstream_calls (trace s)))
    else length (upstream_calls (trace s)).
Proof.
  intros r status. subst r status.
  destruct (validate_ChatRequest cfg raw) as [errs|request] eqn:Hv.
  - assert (Hrej : rejects cfg raw) by by exists errs.
    assert (Hnot : ¬ accepts cfg raw) by by apply rejects_iff_not_accepts.
    unfold post_api_chat. rewrite Hv. simpl.
    split_and!.
    + done.
    + split; [done | by intros [? _]].
    + split; [intros [?|?]; done | by intros [? _]].
    + auto.
    + done.
    + done.
    + first [done | rewrite decide_True; [lia | auto] | rewrite decide_False; [done | intros [?|?]; done]].
  - assert (Hacc : accepts cfg raw) by by exists request.
    assert (Hnot : ¬ rejects cfg raw) by (rewrite rejects_iff_not_accepts; tauto).
    rewrite (post_api_chat_valid _ _ _ _ _ _ _ Hv). unfold route. simpl.
    destruct (limiter_answers_cases cfg now rc s) as [Hgrant | Hdeny].
    + pose proof (limiter_answers_excl _ _ _ _ Hgrant) as Hex.
      pose proof (chat_granted_calls cfg client now request rc s Hgrant) as Hcalls.
      rewrite Hcalls, length_app. simpl.
      destruct (chat_granted_status cfg client now request rc s Hgrant)
        as [[Hst _] | [Hst Hbody]]; simpl in *; rewrite Hst.
      * split_and!.
        -- split; [done | by intros ?].
        -- split; [done | by intros [_ ?%Hex]].
        -- split; [done | intros _; auto].
        -- auto.
        -- done.
        -- done.
        -- first [done | rewrite decide_True; [lia | auto] | rewrite decide_False; [done | intros [?|?]; done]].
      * split_and!.
        -- split; [done | by intros ?].
        -- split; [done | by intros [_ ?%Hex]].
        -- split; [done | intros _; auto].
        -- auto.
        -- done.
        -- intros _. exact Hbody.
        -- first [done | rewrite decide_True; [lia | auto] | rewrite decide_False; [done | intros [?|?]; done]].
    + pose proof (chat_denied_calls cfg client now request rc s Hdeny) as Hcalls.
      rewrite Hcalls. rewrite (chat_denied _ _ _ _ _ _ Hdeny). simpl.
      split_and!.
      * split; [done | by intros ?].
      * done.
      * split; [intros [?|?]; done|].
        intros [_ Hgrant]. destruct (limiter_answers_excl _ _ _ _ Hgrant Hdeny).
      * auto.
      * done.
      * done.
      * first [done | rewrite decide_True; [lia | auto] | rewrite decide_False; [done | intros [?|?]; done]].
Qed.

(** X10. A granted request counts against the limit of its client whatever
    the provider does, a failed call included: its clock reading is recorded
    after the times that are kept, and no other client's record changes. *)
Theorem X10_granted_request_is_recorded (cfg : Config) (client : Upstream) (now : Q)
    (raw : RawChatRequest.t) (request : ChatRequest.t) (rc : option string) (s : State) :
  validate_ChatRequest cfg raw = inr request →
  limiter_answers cfg now rc s true →
  let store := rate_limit_store (post_api_chat cfg client now raw rc s).2 in
  record store (client_key rc)
  = clean_old_requests cfg now (record (rate_limit_store s) (client_key rc)) ++ [now] ∧
  (∀ k, k ≠ client_key rc → record store k = record (rate_limit_store s) k).
Proof.
  intros Hv Hgrant store. subst store.
  rewrite (post_api_chat_valid _ _ _ _ _ _ _ Hv). unfold route. simpl.
  rewrite chat_store.
  unfold limiter_answers in Hgrant. rewrite check_rate_limit_unfold in *. simpl in *.
  case_decide; [discriminate|]. simpl. split.
  - by rewrite record_insert_eq.
  - intros k Hk. by rewrite record_insert_ne.
Qed.

(** A request whose upstream call fails is recorded all the same. *)
Lemma X10_granted_request_is_recorded_witness :
  let raw := body_of [user_message "hello"] Missing in
  let r := post_api_chat default_config unreachable_upstream 7 raw (Some "10.0.0.1")
             initial_state in
  Response.status_code r.1 = 500 ∧ record (rate_limit_store r.2) "10.0.0.1" = [7%Q].
Proof.
  intros raw r. split; [vm_compute; reflexivity|].
  assert (Hv : validate_ChatRequest default_config raw
               = inr {| ChatRequest.messages :=
                          [{| Message.role := "user"; Message.content := "hello" |}];
                        ChatRequest.model := Some "gpt-3.5-turbo";
                        ChatRequest.max_tokens := Some 1024;
                        ChatRequest.temperature := Some 1%Q |})
    by (vm_compute; reflexivity).
  assert (Hgrant : limiter_answers default_config 7 (Some "10.0.0.1") initial_state true)
    by (vm_compute; reflexivity).
  destruct (X10_granted_request_is_recorded default_config unreachable_upstream 7 raw _
              (Some "10.0.0.1") initial_state Hv Hgrant) as [Hrec _].
  exact Hrec.
Defined.

(** X11. What is forwarded as [max_tokens] and [temperature]. A value given
    in the body is forwarded as it is, and lies within its bounds; a [null]
    is forwarded as [None]; a missing [max_tokens] is forwarded as 1024 and
    a missing [temperature] as 1.0. So the forwarded [max_tokens] exceeds
    [MAX_TOKENS] exactly when the field is missing and the ceiling is below
    1024: the default is not checked against the ceiling. *)
Theorem X11_forwarded_limits (cfg : Config) (client : Upstream) (now : Q)
    (raw : RawChatRequest.t) (request : ChatRequest.t) (rc : option string) (s : State) :
  validate_ChatRequest cfg raw = inr request →
  limiter_answers cfg now rc s true →
  ∃ kwargs,
    upstream_calls (trace (post_api_chat cfg client now raw rc s).2)
    = upstream_calls (trace s) ++ [kwargs] ∧
    CreateArgs.max_tokens kwargs
    = match RawChatRequest.max_tokens raw with
      | Missing => Some 1024
      | Null => None
      | Given n => Some n
      end ∧
    CreateArgs.temperature kwargs
    = match RawChatRequest.temperature raw with
      | Missing => Some 1%Q
      | Null => None
      | Given x => Some x
      end ∧
    (∀ n, RawChatRequest.max_tokens raw = Given n → 1 ≤ n ≤ MAX_TOKENS cfg) ∧
    (∀ x, RawChatRequest.temperature raw = Given x → (0 <= x)%Q ∧ (x <= 2)%Q) ∧
    ((∃ n, CreateArgs.max_tokens kwargs = Some n ∧ MAX_TOKENS cfg < n) ↔
     RawChatRequest.max_tokens raw = Missing ∧ MAX_TOKENS cfg < 1024).
Proof.
  intros Hv Hgrant. exists (forwarded request).
  assert (Hacc : accepts cfg raw) by by exists request.
  apply accepts_iff_spec in Hacc as (_ & Hmt & Ht).
  pose proof (validate_ChatRequest_values _ _ _ Hv) as (_ & _ & Hmax & Htemp).
  assert (Hmax' : CreateArgs.max_tokens (forwarded request)
                  = match RawChatRequest.max_tokens raw with
                    | Missing => Some 1024 | Null => None | Given n => Some n end).
  { simpl. destruct (RawChatRequest.max_tokens raw) as [| |n]; simpl in Hmax;
      [congruence | congruence |].
    specialize (Hmt n eq_refl). rewrite !decide_False in Hmax by lia. congruence. }
  split_and!.
  - rewrite (post_api_chat_valid _ _ _ _ _ _ _ Hv). unfold route. simpl.
    by apply chat_granted_calls.
  - done.
  - simpl. destruct (RawChatRequest.temperature raw) as [| |x]; simpl in Htemp;
      [congruence | congruence |].
    destruct (Ht x eq_refl). rewrite !decide_False in Htemp by lra. congruence.
  - done.
  - done.
  - rewrite Hmax'. destruct (RawChatRequest.max_tokens raw) as [| |n]; split.
    + intros (n & [= <-] & Hn). done.
    + intros [_ Hn]. by exists 1024.
    + intros (n & [=] & _).
    + intros [[=] _].
    + intros (n' & [= <-] & Hn). specialize (Hmt n eq_refl). lia.
    + intros [[=] _].
Qed.

(** Under a ceiling of 100 tokens, a body without [max_tokens] goes out
    with 1024. *)
Lemma X11_forwarded_limits_witness :
  let cfg := {| ENVIRONMENT := "development"; MAX_TOKENS := 100;
                RATE_LIMIT_REQUESTS := 100; RATE_LIMIT_PERIOD := 60 |} in
  let raw := body_of [user_message "hello"] Missing in
  ∃ kwargs,
    upstream_calls (trace (post_api_chat cfg stub_upstream 0 raw (Some "10.0.0.1")
                             initial_state).2) = [kwargs] ∧
    CreateArgs.max_tokens kwargs = Some 1024.
Proof.
  intros cfg raw.
  assert (Hv : validate_ChatRequest cfg raw
               = inr {| ChatRequest.messages :=
                          [{| Message.role := "user"; Message.content := "hello" |}];
                        ChatRequest.model := Some "gpt-3.5-turbo";
                        ChatRequest.max_tokens := Some 1024;
                        ChatRequest.temperature := Some 1%Q |})
    by (vm_compute; reflexivity).
  assert (Hgrant : limiter_answers cfg 0 (Some "10.0.0.1") initial_state true)
    by (vm_compute; reflexivity).
  destruct (X11_forwarded_limits cfg stub_upstream 0 raw _ (Some "10.0.0.1")
              initial_state Hv Hgrant) as (kwargs & Hcalls & Hmax & _).
  exists kwargs. split; [exact Hcalls | exact Hmax].
Defined.

(** * Allowed hosts and CORS origins *)

Lemma split_comma_cons s : ∃ part parts, split_comma s = part :: parts.
Proof.
  induction s as [|c rest (part & parts & IH)]; simpl; [by eauto|].
  case_decide; [by eauto|]. rewrite IH. eauto.
Qed.

Lemma concat_cons_char sep c part parts :
  String.concat sep (String c part :: parts) = String c (String.concat sep (part :: parts)).
Proof. destruct parts; reflexivity. Qed.

Lemma join_split s : join_comma (split_comma s) = s.
Proof.
  unfold join_comma. induction s as [|c rest IH]; [done|]. simpl.
  destruct (split_comma_cons rest) as (part & parts & Hrest). rewrite Hrest in *.
  case_decide as Hc.
  - subst c.
    change (String.concat "," ("" :: part :: parts))
      with (String comma (String.concat "," (part :: parts))).
    by rewrite IH.
  - by rewrite concat_cons_char, IH.
Qed.

Lemma length_split s : length (split_comma s) = S (count_comma s).
Proof.
  induction s as [|c rest IH]; [done|]. simpl.
  destruct (split_comma_cons rest) as (part & parts & Hrest). rewrite Hrest in *.
  case_decide; simpl in *; lia.
Qed.

Lemma split_no_comma s : Forall (λ part, count_comma part = 0%nat) (split_comma s).
Proof.
  induction s as [|c rest IH]; simpl; [by repeat constructor|].
  destruct (split_comma_cons rest) as (part & parts & Hrest). rewrite Hrest in *.
  apply Forall_cons in IH as [Hpart Hparts].
  case_decide as Hc; constructor; try done.
  - by constructor.
  - simpl. by rewrite decide_False.
Qed.

Lemma split_part part rest :
  count_comma part = 0%nat →
  split_comma (String.append part (String comma rest)) = part :: split_comma rest.
Proof.
  induction part as [|c part IH]; simpl.
  - intros _. by rewrite ?decide_True.
  - case_decide; [discriminate|]. simpl. intros Hpart. by rewrite IH.
Qed.

Lemma split_single part : count_comma part = 0%nat → split_comma part = [part].
Proof.
  induction part as [|c part IH]; simpl; [done|].
  case_decide; [discriminate|]. simpl. intros Hpart. by rewrite IH.
Qed.

Lemma split_join parts :
  parts ≠ [] → Forall (λ part, count_comma part = 0%nat) parts →
  split_comma (join_comma parts) = parts.
Proof.
  unfold join_comma. intros Hne Hall.
  induction Hall as [|part parts Hpart Hparts IH]; [done|].
  destruct parts as [|part' parts']; simpl.
  - by apply split_single.
  - change (String.append "," ?x) with (String comma x).
    rewrite split_part by done. f_equal. by apply IH.
Qed.

(** X12. Splitting the host list at its commas loses nothing: joining the
    parts with commas gives the string back, there is one part more than
    there are commas (so at least one, also for the empty string), no part
    holds a comma and none is trimmed; and splitting a joined list of
    comma-free parts gives the list back. *)
Theorem X12_split_join_round_trip (s : string) (parts : list string) :
  join_comma (split_comma s) = s ∧
  length (split_comma s) = S (count_comma s) ∧
  Forall (λ part, count_comma part = 0%nat) (split_comma s) ∧
  (parts ≠ [] → Forall (λ part, count_comma part = 0%nat) parts →
   split_comma (join_comma parts) = parts).
Proof.
  split_and!.
  - apply join_split.
  - apply length_split.
  - apply split_no_comma.
  - apply split_join.
Qed.

Lemma X12_split_join_round_trip_witness :
  split_comma "example.com, api.example.com" = ["example.com"; " api.example.com"].
Proof.
  destruct (X12_split_join_round_trip "" ["example.com"; " api.example.com"])
    as (_ & _ & _ & Hsplit).
  apply Hsplit; [done|]. repeat constructor.
Defined.

Lemma split_is_wildcard s : split_comma s = ["*"] ↔ s = "*".
Proof.
  split; [|by intros ->].
  intros Hs. rewrite <- (join_split s), Hs. reflexivity.
Qed.

(** X13. The CORS origins. Outside production every origin is allowed,
    whatever [ALLOWED_HOSTS] holds. In production the origins are never the
    lone wildcard: when [ALLOWED_HOSTS] is not set or is the wildcard no
    origin is allowed, and otherwise the origins are the comma-separated
    hosts as written. *)
Theorem X13_cors_origins (cfg : Config) (value : option string) :
  let hosts := ALLOWED_HOSTS value in
  (ENVIRONMENT cfg ≠ "production" → origins cfg hosts = ["*"]) ∧
  (ENVIRONMENT cfg = "production" →
   origins cfg hosts ≠ ["*"] ∧
   (origins cfg hosts = [] ↔ value = None ∨ value = Some "*") ∧
   (value ≠ None → value ≠ Some "*" →
    origins cfg hosts = hosts ∧ Some (join_comma (origins cfg hosts)) = value)).
Proof.
  intros hosts. unfold origins. split.
  - intros Hdev. by rewrite decide_False.
  - intros Hprod. rewrite decide_True by done.
    assert (Hwild : hosts = ["*"] ↔ value = None ∨ value = Some "*").
    { subst hosts. unfold ALLOWED_HOSTS. rewrite split_is_wildcard.
      destruct value as [v|]; simpl; split; auto.
      - intros ->. auto.
      - by intros [[=] | [= ->]]. }
    case_decide as Hhosts; split_and!.
    + done.
    + split.
      * intros Hnil. subst hosts. unfold ALLOWED_HOSTS in Hnil.
        destruct (split_comma_cons (default "*" value)) as (p & ps & Hs). congruence.
      * intros Hv. by apply Hwild in Hv.
    + intros Hnone Hstar. split; [done|]. subst hosts. unfold ALLOWED_HOSTS.
      rewrite join_split. by destruct value.
    + done.
    + split; [intros _|done]. apply Hwild.
      destruct (decide (hosts = ["*"])); [done | by destruct Hhosts].
    + intros Hnone Hstar.
      assert (Hh : hosts = ["*"]) by (destruct (decide (hosts = ["*"])); [done | by destruct Hhosts]).
      apply Hwild in Hh as [?|?]; done.
Qed.

Lemma X13_cors_origins_witness :
  let production := {| ENVIRONMENT := "production"; MAX_TOKENS := 2048;
                       RATE_LIMIT_REQUESTS := 100; RATE_LIMIT_PERIOD := 60 |} in
  origins default_config (ALLOWED_HOSTS (Some "example.com")) = ["*"] ∧
  origins production (ALLOWED_HOSTS None) = [] ∧
  origins production (ALLOWED_HOSTS (Some "example.com,api.example.com"))
  = ["example.com"; "api.example.com"].
Proof.
  intros production. split_and!.
  - apply (X13_cors_origins default_config (Some "example.com")). discriminate.
  - apply (X13_cors_origins production None); [reflexivity | by left].
  - vm_compute. reflexivity.
Defined.

(** * Security headers *)

Lemma get_set_header_eq name name' value h :
  lower name' = lower name → get_header name' (set_header name value h) = Some value.
Proof. intros Heq. unfold get_header, set_header. rewrite Heq. apply lookup_insert_eq. Qed.

Lemma get_set_header_ne name name' value h :
  lower name' ≠ lower name → get_header name' (set_header name value h) = get_header name' h.
Proof. intros Hne. unfold get_header, set_header. by rewrite lookup_insert_ne. Qed.

(** X14. The security headers. When the rest of the application answers,
    the middleware passes on the status and body and the state as they
    are, sets each of the four security headers to its fixed value
    (replacing a value the handler had set, in whatever letter case it or
    the reader writes the name), and leaves every other header alone;
    running it twice is running it once. When the rest of the application
    raises, the exception goes through and no header is set. *)
Theorem X14_security_headers {Request : Type} (request : Request)
    (call_next : Request → M State Served.t) (s : State) :
  match call_next request s with
  | (Return inner, s') =>
      ∃ outer,
        add_security_headers request call_next s = (Return outer, s') ∧
        Served.response outer = Served.response inner ∧
        (∀ name value name',
           (name, value) ∈ security_headers → lower name' = lower name →
           get_header name' (Served.headers outer) = Some value) ∧
        (∀ name',
           (∀ name value, (name, value) ∈ security_headers → lower name' ≠ lower name) →
           get_header name' (Served.headers outer) = get_header name' (Served.headers inner)) ∧
        add_security_headers request (λ r, add_security_headers r call_next) s
        = (Return outer, s')
  | (Raise e, s') => add_security_headers request call_next s = (Raise e, s')
  end.
Proof.
  destruct (call_next request s) as [[inner|e] s'] eqn:Hnext.
  2:{ unfold add_security_headers, bind. by rewrite Hnext. }
  assert (Hrun : ∀ next : Request → M State Served.t, ∀ inner0,
            next request s = (Return inner0, s') →
            add_security_headers request next s
            = (Return {| Served.response := Served.response inner0;
                         Served.headers :=
                           set_header "Strict-Transport-Security"
                             "max-age=31536000; includeSubDomains"
                             (set_header "X-XSS-Protection" "1; mode=block"
                                (set_header "X-Frame-Options" "DENY"
                                   (set_header "X-Content-Type-Options" "nosniff"
                                      (Served.headers inner0)))) |}, s')).
  { intros next inner0 Hn. unfold add_security_headers, bind. by rewrite Hn. }
  eexists. split; [by apply Hrun|]. simpl. split_and!.
  - done.
  - intros name value name' Hin Heq. unfold security_headers in Hin.
    repeat (apply elem_of_cons in Hin as [[= -> ->] | Hin];
            [ unfold get_header, set_header; rewrite Heq, !lookup_insert;
              repeat case_decide; try done; by vm_compute in * |]).
    by apply elem_of_nil in Hin.
  - intros name' Hother.
    rewrite !get_set_header_ne; [done|..];
      (eapply Hother; unfold security_headers;
       repeat first [apply list_elem_of_here | apply list_elem_of_further]).
  - rewrite (Hrun (λ r, add_security_headers r call_next) _ (Hrun call_next inner Hnext)).
    simpl. do 2 f_equal. f_equal. unfold set_header.
    apply map_eq. intros i. rewrite !lookup_insert.
    repeat case_decide; done.
Qed.

(** * The setup verification script *)

Lemma prefix_spec p s : String.prefix p s = true ↔ ∃ post, s = p +:+ post.
Proof.
  revert p. induction s as [|c' s IH]; intros [|c p]; simpl.
  - split; [intros _; by exists "" | done].
  - split; [done | by intros [post [=]]].
  - split; [intros _; by eexists | done].
  - destruct (Ascii.ascii_dec c c') as [<- | Hne].
    + rewrite IH. split; intros [post Hpost]; exists post;
        [by rewrite Hpost | by injection Hpost].
    + split; [done|]. intros [post [= ? _]]. congruence.
Qed.

Lemma contains_spec needle hay :
  contains needle hay = true ↔ ∃ pre post, hay = pre +:+ needle +:+ post.
Proof.
  induction hay as [|c hay IH].
  - destruct needle as [|a needle]; simpl.
    + split; [intros _; by exists "", "" | done].
    + split; [done|]. intros (pre & post & Heq). destruct pre; discriminate.
  - change (contains needle (String c hay))
      with (String.prefix needle (String c hay) || contains needle hay).
    rewrite orb_true_iff, prefix_spec, IH. split.
    + intros [[post Hpost] | (pre & post & Heq)].
      * by exists "", post.
      * exists (String c pre), post. simpl. by rewrite Heq.
    + intros (pre & post & Heq). destruct pre as [|c' pre]; simpl in Heq.
      * left. by exists post.
      * right. exists pre, post. by injection Heq.
Qed.

Lemma import_name_id package : import_name package = package.
Proof. unfold import_name. case_decide as H; [done|]. by destruct (decide (package = "dotenv")) as [->|]. Qed.

Lemma import_each_run m packages missing out :
  import_each m packages missing out
  = (Return (missing ++ filter (λ package, importable m package = false) packages),
     out ++ (package_line m <$> packages)).
Proof.
  revert missing out. induction packages as [|package rest IH]; intros missing out; simpl.
  - unfold ret. by rewrite !app_nil_r.
  - rewrite import_name_id, filter_cons. unfold package_line at 1.
    destruct (importable m package) eqn:Himp; unfold bind, print, modify; simpl;
      rewrite IH, <- !app_assoc; repeat case_decide; done.
Qed.

Lemma filter_nil_iff {A} (P : A → Prop) `{!∀ x, Decision (P x)} (l : list A) :
  filter P l = [] ↔ ∀ x, x ∈ l → ¬ P x.
Proof.
  split.
  - intros Hnil x Hx HP. by eapply filter_nil_not_elem_of.
  - intros Hall. induction l as [|x l IH]; [done|].
    rewrite filter_cons, decide_False; [|apply Hall, list_elem_of_here].
    apply IH. intros y Hy. apply Hall. by apply list_elem_of_further.
Qed.

Lemma check_dependencies_run m out :
  ∃ b hint,
    check_dependencies m out
    = (Return b, out ++ (package_line m <$> required_packages) ++ hint) ∧
    (b = true ↔ dependencies_ok m) ∧
    hint = (if b then []
            else [LF +:+ "[!] Missing packages. Run: pip install -r requirements.txt"]).
Proof.
  unfold check_dependencies, bind. rewrite import_each_run. simpl app at 1.
  assert (Hok : filter (λ package, importable m package = false) required_packages = []
                ↔ dependencies_ok m).
  { rewrite filter_nil_iff. unfold dependencies_ok. split; intros H package Hin.
    - specialize (H package Hin). by destruct (importable m package).
    - rewrite (H package Hin). discriminate. }
  destruct (filter _ required_packages) as [|p ps] eqn:Hmissing.
  - exists true, []. rewrite app_nil_r. split_and!; [done | tauto | done].
  - exists false. eexists. unfold print, modify. simpl. rewrite <- app_assoc.
    split_and!; [reflexivity | | done].
    split; [discriminate|]. intros Hdeps. by apply Hok in Hdeps.
Qed.

Lemma check_python_version_decides m : decides (check_python_version m) (version_ok m).
Proof.
  intros out. unfold check_python_version, version_ok.
  case_decide as Hold; eexists _, [_]; (split; [reflexivity|]); split; try done; lia.
Qed.

Lemma check_dependencies_decides m : decides (check_dependencies m) (dependencies_ok m).
Proof.
  intros out. destruct (check_dependencies_run m out) as (b & hint & Hrun & Hb & _).
  by exists b, ((package_line m <$> required_packages) ++ hint).
Qed.

Lemma contains_false needle hay :
  contains needle hay = false ↔ ∀ pre post, hay ≠ pre +:+ needle +:+ post.
Proof.
  rewrite <- not_true_iff_false, contains_spec. split.
  - intros Hnot pre post Heq. apply Hnot. by exists pre, post.
  - intros Hall (pre & post & Heq). by apply (Hall pre post).
Qed.

Lemma check_env_file_decides m : decides (check_env_file m) (env_file_ok m).
Proof.
  intros out. unfold check_env_file, env_file_ok.
  destruct (path_exists m ".env"); simpl.
  - destruct (contains "your_api_key_here" (env_file m)) eqn:Hplace.
    + eexists false, _. unfold bind, print, modify, ret. simpl.
      rewrite <- !app_assoc. split; [reflexivity|]. split; [done|].
      intros (_ & Hnot & _). apply contains_spec in Hplace as (pre & post & Heq).
      by destruct (Hnot pre post).
    + pose proof (proj1 (contains_false _ _) Hplace) as Hnone.
      destruct (contains "ANTHROPIC_API_KEY=" (env_file m)) eqn:Hkey.
      * eexists true, _. unfold bind, print, modify, ret. simpl.
        rewrite <- !app_assoc. split; [reflexivity|]. split; [|done].
        intros _. split_and!; [done | done | by apply contains_spec].
      * eexists false, [_]. unfold bind, print, modify, ret. simpl.
        split; [reflexivity|]. split; [done|].
        intros (_ & _ & Hhas). apply contains_spec in Hhas. congruence.
  - eexists false, _. unfold bind, print, modify, ret. simpl.
    rewrite <- !app_assoc. split; [reflexivity|]. split; [done | by intros [? _]].
Qed.

(** The status line of a file that exists in [check_static_files]. *)
Lemma check_each_file_all m files out :
  Forall (λ file, path_exists m ("static/" +:+ file) = true) files →
  check_each_file m files out
  = (Return true, out ++ ((λ file, "[OK] " +:+ file +:+ " exists") <$> files)).
Proof.
  intros Hall. revert out. induction Hall as [|file rest Hfile Hrest IH]; intros out; simpl.
  - unfold ret. by rewrite app_nil_r.
  - rewrite Hfile. simpl. unfold bind, print, modify. simpl.
    by rewrite IH, <- app_assoc.
Qed.

Lemma check_each_file_first_missing m before file after out :
  Forall (λ file, path_exists m ("static/" +:+ file) = true) before →
  path_exists m ("static/" +:+ file) = false →
  check_each_file m (before ++ file :: after) out
  = (Return false,
     out ++ ((λ file, "[OK] " +:+ file +:+ " exists") <$> before)
         ++ ["[X] " +:+ file +:+ " not found in static/"]).
Proof.
  intros Hall Hmissing. revert out.
  induction Hall as [|f rest Hf Hrest IH]; intros out; simpl.
  - rewrite Hmissing. reflexivity.
  - rewrite Hf. simpl. unfold bind, print, modify. simpl.
    by rewrite IH, <- app_assoc.
Qed.

Lemma check_each_file_decides m files :
  decides (check_each_file m files)
          (∀ file, file ∈ files → path_exists m ("static/" +:+ file) = true).
Proof.
  induction files as [|file rest IH]; intros out; simpl.
  - exists true, []. unfold ret. rewrite app_nil_r. split; [done|].
    split; [|done]. intros _ file Hin. by apply elem_of_nil in Hin.
  - destruct (path_exists m ("static/" +:+ file)) eqn:Hfile; simpl.
    + unfold bind, print, modify. simpl.
      destruct (IH (out ++ ["[OK] " +:+ file +:+ " exists"])) as (b & lines & Hrun & Hb).
      exists b, (["[OK] " +:+ file +:+ " exists"] ++ lines).
      rewrite Hrun, app_assoc. split; [done|]. rewrite Hb. split.
      * intros Hrest f Hin. apply elem_of_cons in Hin as [-> | Hin]; auto.
      * intros Hall f Hin. apply Hall. by apply list_elem_of_further.
    + eexists false, [_]. split; [reflexivity|]. split; [done|].
      intros Hall. rewrite (Hall file) in Hfile; [done | apply list_elem_of_here].
Qed.

Lemma print_bind {A} line (k : M Stdout A) out :
  (print line ;; k) out = k (out ++ [line]).
Proof. reflexivity. Qed.

Lemma check_static_files_decides m : decides (check_static_files m) (static_files_ok m).
Proof.
  intros out. unfold check_static_files, static_files_ok.
  destruct (path_exists m "static"); cbn [negb].
  - rewrite print_bind.
    destruct (check_each_file_decides m required_files
                (out ++ ["[OK] static/ directory exists"])) as (b & lines & Hrun & Hb).
    exists b, (["[OK] static/ directory exists"] ++ lines).
    rewrite Hrun, app_assoc. split; [done|]. rewrite Hb. tauto.
  - eexists false, [_]. split; [reflexivity|]. split; [done | by intros [? _]].
Qed.

(** One round of the loop of [main]. *)
Lemma run_check_round name check P rest results out :
  decides check P →
  ∃ b lines,
    (b = true ↔ P) ∧
    run_checks ((name, check) :: rest) results out
    = run_checks rest (results ++ [b])
        (out ++ [LF +:+ "Checking " +:+ name +:+ "..."] ++ lines).
Proof.
  intros Hcheck. cbn [run_checks]. rewrite !print_bind.
  destruct (Hcheck ((out ++ [LF +:+ "Checking " +:+ name +:+ "..."]) ++ [str_mul "-" 60]))
    as (b & lines & Hrun & Hb).
  exists b, ([str_mul "-" 60] ++ lines ++ [""]). split; [done|].
  unfold bind at 1. rewrite Hrun, print_bind.
  f_equal. by rewrite <- !app_assoc.
Qed.

Lemma import_each_agree m m' packages missing out :
  Forall (λ package, importable m package = importable m' package) packages →
  import_each m packages missing out = import_each m' packages missing out.
Proof.
  intros Hagree. revert missing out.
  induction Hagree as [|package rest Hp Hrest IH]; intros missing out; [done|].
  cbn [import_each]. rewrite import_name_id, Hp.
  destruct (importable m' package); rewrite !print_bind; apply IH.
Qed.

(** X15. [check_dependencies] tries all five required packages, in the
    order of the list, and prints one status line for each, whichever are
    missing; it returns [True] exactly when all five can be imported, and
    adds the hint line exactly when it returns [False]. Nothing else is
    looked at: two machines that agree on the five packages give the same
    run (the [openai] package, which the application imports, is not among
    them). *)
Theorem X15_check_dependencies (m : Machine) (out : Stdout) :
  (∃ b hint,
     check_dependencies m out
     = (Return b, out ++ (package_line m <$> required_packages) ++ hint) ∧
     (b = true ↔ dependencies_ok m) ∧
     hint = (if b then []
             else [LF +:+ "[!] Missing packages. Run: pip install -r requirements.txt"])) ∧
  (∀ m',
     (∀ package, package ∈ required_packages →
                 importable m package = importable m' package) →
     check_dependencies m out = check_dependencies m' out) ∧
  "openai" ∉ required_packages.
Proof.
  split_and!.
  - apply check_dependencies_run.
  - intros m' Hagree. unfold check_dependencies, bind.
    rewrite (import_each_agree m m'); [done|]. by apply Forall_forall.
  - apply (bool_decide_unpack _). vm_compute. exact I.
Qed.

(** A machine without the [openai] package passes the check. *)
Lemma X15_check_dependencies_witness :
  let m := {| version_info := (3, 11, 4);
              importable := λ package, negb (bool_decide (package = "openai"));
              path_exists := λ _, true;
              env_file := "ANTHROPIC_API_KEY=sk-ant-000" |} in
  check_dependencies m [] = check_dependencies ready_machine [] ∧
  (check_dependencies ready_machine []).1 = Return true.
Proof.
  intros m. split; [|vm_compute; reflexivity].
  destruct (X15_check_dependencies m []) as (_ & Hagree & _).
  apply Hagree. intros package Hin. unfold required_packages in Hin.
  repeat (apply elem_of_cons in Hin as [-> | Hin]; [vm_compute; reflexivity|]).
  by apply elem_of_nil in Hin.
Defined.

(** X16. [check_env_file] returns [True] exactly when [.env] exists, its
    text does not hold the placeholder [your_api_key_here] anywhere, and it
    holds [ANTHROPIC_API_KEY=] somewhere: the placeholder wins over a key
    that is set, and what follows the [=] is not looked at. When the file
    exists and holds neither text, the check fails without saying why: the
    only line printed is that the file exists. *)
Theorem X16_check_env_file (m : Machine) (out : Stdout) :
  (∃ b lines, check_env_file m out = (Return b, out ++ lines) ∧ (b = true ↔ env_file_ok m)) ∧
  (path_exists m ".env" = true →
   (∀ pre post, env_file m ≠ pre +:+ "your_api_key_here" +:+ post) →
   (∀ pre post, env_file m ≠ pre +:+ "ANTHROPIC_API_KEY=" +:+ post) →
   check_env_file m out = (Return false, out ++ ["[OK] .env file exists"])).
Proof.
  split; [apply check_env_file_decides|].
  intros Hexists Hplace Hkey. unfold check_env_file. rewrite Hexists. cbn [negb].
  rewrite print_bind.
  apply contains_false in Hplace. apply contains_false in Hkey.
  by rewrite Hplace, Hkey.
Qed.

(** A file that sets another variable only: the check fails in silence. *)
Lemma X16_check_env_file_witness :
  check_env_file {| version_info := (3, 11, 4); importable := λ _, true;
                    path_exists := λ _, true; env_file := "OPENAI_API_KEY=sk-000" |} []
  = (Return false, ["[OK] .env file exists"]).
Proof.
  destruct (X16_check_env_file
              {| version_info := (3, 11, 4); importable := λ _, true;
                 path_exists := λ _, true; env_file := "OPENAI_API_KEY=sk-000" |} [])
    as [_ Hsilent].
  apply Hsilent; [reflexivity | |]; apply contains_false; vm_compute; reflexivity.
Defined.

(** X17. [check_static_files] returns [True] exactly when [static] and the
    three required files in it exist. It stops at the first file that does
    not exist: after the line for the directory and one line for each file
    before it, it reports that file and looks at none after it. *)
Theorem X17_check_static_files (m : Machine) (out : Stdout) :
  (∃ b lines,
     check_static_files m out = (Return b, out ++ lines) ∧ (b = true ↔ static_files_ok m)) ∧
  (∀ before file after,
     required_files = before ++ file :: after →
     path_exists m "static" = true →
     Forall (λ file, path_exists m ("static/" +:+ file) = true) before →
     path_exists m ("static/" +:+ file) = false →
     check_static_files m out
     = (Return false,
        out ++ ["[OK] static/ directory exists"]
            ++ ((λ file, "[OK] " +:+ file +:+ " exists") <$> before)
            ++ ["[X] " +:+ file +:+ " not found in static/"])).
Proof.
  split; [apply check_static_files_decides|].
  intros before file after Hfiles Hdir Hbefore Hmissing.
  unfold check_static_files. rewrite Hdir. cbn [negb]. rewrite print_bind, Hfiles.
  rewrite (check_each_file_first_missing _ _ _ _ _ Hbefore Hmissing).
  by rewrite <- !app_assoc.
Qed.

(** Neither stylesheet nor script: only the stylesheet is reported. *)
Lemma X17_check_static_files_witness :
  check_static_files
    {| version_info := (3, 11, 4); importable := λ _, true;
       path_exists := λ path, bool_decide (path = "static" ∨ path = "static/index.html");
       env_file := "" |} []
  = (Return false,
     ["[OK] static/ directory exists"; "[OK] index.html exists";
      "[X] styles.css not found in static/"]).
Proof.
  destruct (X17_check_static_files
              {| version_info := (3, 11, 4); importable := λ _, true;
                 path_exists := λ path, bool_decide (path = "static" ∨ path = "static/index.html");
                 env_file := "" |} []) as [_ Hfirst].
  apply (Hfirst ["index.html"] "styles.css" ["app.js"]); try reflexivity.
  repeat constructor.
Defined.

(** The run of [main]: the four results and the shape of the output. *)
Lemma main_run m out :
  ∃ b1 b2 b3 b4 l1 l2 l3 l4 closing,
    (b1 = true ↔ version_ok m) ∧ (b2 = true ↔ dependencies_ok m) ∧
    (b3 = true ↔ env_file_ok m) ∧ (b4 = true ↔ static_files_ok m) ∧
    main m out
    = (Return (if b1 && b2 && b3 && b4 then 0 else 1),
       out ++ [str_mul "=" 60; "AI Chatbot - Setup Verification"; str_mul "=" 60; ""]
           ++ [LF +:+ "Checking Python Version..."] ++ l1
           ++ [LF +:+ "Checking Dependencies..."] ++ l2
           ++ [LF +:+ "Checking Environment File..."] ++ l3
           ++ [LF +:+ "Checking Static Files..."] ++ l4
           ++ closing).
Proof.
  unfold main. rewrite !print_bind. unfold checks. unfold bind at 1.
  destruct (run_check_round "Python Version" _ _
              [("Dependencies", check_dependencies m);
               ("Environment File", check_env_file m);
               ("Static Files", check_static_files m)] [] 
              ((((out ++ [str_mul "=" 60]) ++ ["AI Chatbot - Setup Verification"])
                ++ [str_mul "=" 60]) ++ [""])
              (check_python_version_decides m)) as (b1 & l1 & Hb1 & ->).
  destruct (run_check_round "Dependencies" _ _
              [("Environment File", check_env_file m);
               ("Static Files", check_static_files m)] ([] ++ [b1])
              (((((out ++ [str_mul "=" 60]) ++ ["AI Chatbot - Setup Verification"])
                 ++ [str_mul "=" 60]) ++ [""])
               ++ [LF +:+ "Checking " +:+ "Python Version" +:+ "..."] ++ l1)
              (check_dependencies_decides m)) as (b2 & l2 & Hb2 & ->).
  match goal with
  | |- context [run_checks [?c3; ?c4] ?rs ?o] =>
      destruct (run_check_round "Environment File" _ _ [c4] rs o
                  (check_env_file_decides m)) as (b3 & l3 & Hb3 & ->)
  end.
  match goal with
  | |- context [run_checks [?c4] ?rs ?o] =>
      destruct (run_check_round "Static Files" _ _ [] rs o
                  (check_static_files_decides m)) as (b4 & l4 & Hb4 & ->)
  end.
  cbn [run_checks]. unfold ret at 1. rewrite print_bind.
  change (forallb id (((([] ++ [b1]) ++ [b2]) ++ [b3]) ++ [b4]))
    with (b1 && (b2 && (b3 && (b4 && true)))).
  exists b1, b2, b3, b4, l1, l2, l3, l4.
  destruct b1, b2, b3, b4; cbn [andb]; rewrite ?print_bind; unfold ret;
    eexists; (split_and!; [done | done | done | done |]);
    (f_equal; rewrite <- !app_assoc; cbn [app]; reflexivity).
Qed.

(** X18. [main] runs the four checks one after the other, each of them
    whatever the ones before returned: the output holds the heading of
    every check. It keeps what was printed before, and its exit code is 0
    exactly when the interpreter is 3.8 or later (a later major version, or
    major 3 with minor at least 8, whatever the micro version), all
    required packages import, the environment file passes, and the static
    files exist; it is 1 otherwise. *)
Theorem X18_main_exit_code (m : Machine) (out : Stdout) :
  let all_ok := version_ok m ∧ dependencies_ok m ∧ env_file_ok m ∧ static_files_ok m in
  ((main m out).1 = Return 0 ↔ all_ok) ∧
  ((main m out).1 = Return 1 ↔ ¬ all_ok) ∧
  (∀ name,
     name ∈ ["Python Version"; "Dependencies"; "Environment File"; "Static Files"] →
     (LF +:+ "Checking " +:+ name +:+ "...") ∈ (main m out).2) ∧
  out `prefix_of` (main m out).2.
Proof.
  intros all_ok. subst all_ok.
  destruct (main_run m out)
    as (b1 & b2 & b3 & b4 & l1 & l2 & l3 & l4 & closing & H1 & H2 & H3 & H4 & ->).
  cbn [fst snd].
  assert (Hall : b1 && b2 && b3 && b4 = true
                 ↔ version_ok m ∧ dependencies_ok m ∧ env_file_ok m ∧ static_files_ok m).
  { rewrite !andb_true_iff, H1, H2, H3, H4. tauto. }
  split_and!.
  - rewrite <- Hall. destruct (b1 && b2 && b3 && b4); split; done.
  - rewrite <- Hall. destruct (b1 && b2 && b3 && b4); split.
    + intros [=].
    + intros Hnot. by destruct Hnot.
    + intros _ [=].
    + done.
  - intros name Hin.
    repeat (apply elem_of_cons in Hin as [-> | Hin];
            [ rewrite !elem_of_app, !list_elem_of_singleton; tauto |]).
    by apply elem_of_nil in Hin.
  - by eexists.
Qed.

(** On a machine where everything is in place the exit code is 0; with a
    3.7 interpreter it is 1. *)
Lemma X18_main_exit_code_witness :
  (main ready_machine []).1 = Return 0 ∧
  (main {| version_info := (3, 7, 9); importable := λ _, true;
           path_exists := λ _, true; env_file := "ANTHROPIC_API_KEY=sk-ant-000" |} []).1
  = Return 1.
Proof.
  split.
  - apply (X18_main_exit_code ready_machine []). split_and!.
    + right. simpl. lia.
    + intros package _. reflexivity.
    + split_and!; [reflexivity | | by exists "", "sk-ant-000"].
      apply contains_false. vm_compute. reflexivity.
    + split; [reflexivity | intros file _; reflexivity].
  - apply (X18_main_exit_code
             {| version_info := (3, 7, 9); importable := λ _, true;
                path_exists := λ _, true; env_file := "ANTHROPIC_API_KEY=sk-ant-000" |} []).
    intros [[Hv | [_ Hv]] _]; simpl in Hv; lia.
Defined.
